(** * Beat/time conversion of the MIDI <-> JSON converters

    A shallow embedding of [json_to_midi.py], [json_to_midi_WORKING.py],
    [midi_to_json.py] and [notes_code.py], and the properties of their
    tempo-map and note handling.

    Modelling conventions.
    - Python floats and ints are exact rationals ([Qc], canonical fractions, so
      that Leibniz equality is numeric equality, as for dictionary keys) and
      integers ([Z]).  IEEE rounding, overflow, NaN and infinities are outside
      the model: a number stands for itself, [float()] and [int()] never raise
      [OverflowError], and no value is NaN.  A property that would not
      survive them is stated under a hypothesis that keeps them out
      ([double_range], [finite_numbers], [exact_double]) or is not stated.
    - A parsed JSON document is a value of type [json].  A [str] value is kept
      as what [float()] and [int()] return on it.
    - Exceptions are values of [exn], carried by the [result] monad.
    - Every [print] is one constructor of [diag]; a function that prints returns
      the messages it printed, in order.  A constructor says which [print]
      ran and keeps the numbers it formats; the note or the event that some
      messages quote is not kept.
    - Dictionaries are [gmap]s, the set of track numbers is a [gset].
    - Reading and writing files, and the libraries [pretty_midi] and
      [midiutil], are outside the model: a conversion starts from the parsed
      document or the loaded [PrettyMIDI] object and ends at the data handed
      to the writer; what the scripts ask of a library is a parameter. *)

From Stdlib Require Import QArith Qcanon Lqa.
From stdpp Require Import base numbers gmap strings list sorting.

Local Open Scope Qc_scope.

(** ** Python values and primitives *)

Module Py.

Inductive exn : Type :=
  | KeyError
  | TypeError
  | ValueError
  | IndexError
  | ZeroDivisionError.

Global Instance exn_eq_dec : EqDecision exn.
Proof. solve_decision. Defined.

Inductive result (A : Type) : Type :=
  | Ok (a : A)
  | Raise (e : exn).
Global Arguments Ok {A} a.
Global Arguments Raise {A} e.

Global Instance result_eq_dec {A} `{EqDecision A} : EqDecision (result A).
Proof. solve_decision. Defined.

Global Instance result_fmap : FMap result := λ A B f r,
  match r with
  | Ok a => Ok (f a)
  | Raise e => Raise e
  end.

Global Instance result_ret : MRet result := λ A a, Ok a.
Global Instance result_bind : MBind result := λ A B f r,
  match r with
  | Ok a => f a
  | Raise e => Raise e
  end.

(** [[f(x) for x in l]], stopping at the first exception. *)
Fixpoint traverse {A B} (f : A → result B) (l : list A) : result (list B) :=
  match l with
  | [] => Ok []
  | x :: l' => y ← f x; ys ← traverse f l'; Ok (y :: ys)
  end.

(** A value of the document [json.load] returns.  Numbers are exact
    rationals, ints and floats alike; the literals [NaN] and [Infinity] that
    [json.load] accepts have no counterpart.  A string is kept as the
    results of [float()] and [int()] on it ([None] when they raise
    [ValueError]); its characters play no part in the conversion.  A string
    that spells a NaN or an infinity has no counterpart either. *)
#[warnings="-register-all"] Inductive json : Type :=
  | JNull
  | JBool (b : bool)
  | JNum (q : Qc)
  | JStr (as_float : option Qc) (as_int : option Z)
  | JArr (l : list json)
  | JObj (m : gmap string json).

(** The number literal [z]. *)
Definition num (z : Z) : Qc := Qc_of_Z z.

(** Python's [int(x)] on a number truncates towards zero. *)
Definition trunc (q : Qc) : Z := Z.quot (Qnum q) (Zpos (Qden q)).

(** [True] is 1 and [False] is 0. *)
Definition bool_num (b : bool) : Z := if b then 1%Z else 0%Z.

(** [float(v)], on the numbers the model has: the number itself.  Python
    rounds it to a double and raises [OverflowError] on an integer beyond
    the doubles. *)
Definition float (v : json) : result Qc :=
  match v with
  | JNum q => Ok q
  | JBool b => Ok (num (bool_num b))
  | JStr (Some q) _ => Ok q
  | JStr None _ => Raise ValueError
  | JNull | JArr _ | JObj _ => Raise TypeError
  end.

(** [int(v)], on the numbers the model has: the integer part.  Python
    raises [OverflowError] on an infinity. *)
Definition int (v : json) : result Z :=
  match v with
  | JNum q => Ok (trunc q)
  | JBool b => Ok (bool_num b)
  | JStr _ (Some z) => Ok z
  | JStr _ None => Raise ValueError
  | JNull | JArr _ | JObj _ => Raise TypeError
  end.

(** [v > x] for a float [x] *)
Definition gt (v : json) (x : Qc) : result bool :=
  match v with
  | JNum q => Ok (bool_decide (x < q))
  | JBool b => Ok (bool_decide (x < num (bool_num b)))
  | JNull | JStr _ _ | JArr _ | JObj _ => Raise TypeError
  end.

(** [d.get(k, dflt)] *)
Definition get (d : gmap string json) (k : string) (dflt : json) : json :=
  default dflt (d !! k).

(** [d[k]] *)
Definition getitem (d : gmap string json) (k : string) : result json :=
  match d !! k with
  | Some v => Ok v
  | None => Raise KeyError
  end.

(** [isinstance(v, dict)] *)
Definition as_dict (v : json) : option (gmap string json) :=
  match v with
  | JObj m => Some m
  | _ => None
  end.

(** [l.sort(key=...)] with the keys already computed: a stable sort, written
    as the insertion sort that keeps equal keys in their input order. *)
Fixpoint insert_by_key {A} (key : A → Qc) (x : A) (l : list A) : list A :=
  match l with
  | [] => [x]
  | y :: l' =>
      if decide (key x ≤ key y) then x :: y :: l'
      else y :: insert_by_key key x l'
  end.

Fixpoint sort_by_key {A} (key : A → Qc) (l : list A) : list A :=
  match l with
  | [] => []
  | x :: l' => insert_by_key key x (sort_by_key key l')
  end.

End Py.

Import Py.

(** ** Diagnostics: one constructor per [print] *)

(** The messages of lines 179, 217, 235, 238 and 241 of [json_to_midi.py]
    and of lines 95, 131, 134 and 137 of [json_to_midi_WORKING.py] also
    print the note, and the one of line 144 the tempo event; the
    constructors do not keep them. *)

Inductive diag : Type :=
  (* get_time_from_beat *)
  | WarnEmptyBeatTimeMap
  | WarnNonPositiveBpm (active_bpm seg_start_beat : Qc)
  (* data extraction *)
  | ErrMissingKeys
  | ErrNotesNotList
  | ErrTempoMapEmpty
  | WarnTempoMapDefault
  (* tempo map *)
  | WarnNoTempoAtZero
  | ErrTempoMapInvalid (e : exn)
  | WarnTempoNotSorted (i : nat) (event_beat last_beat : Qc)
  | WarnTempoBpmCoerced (event_bpm event_beat : Qc)
  | WarnPreviousBpmInvalid
  | WarnSkipTempoEvent (e : exn)
  | WarnTempoUnreadable (e : exn)
  (* instruments *)
  | WarnNegativeTrack (track_num : Z)
  | InfoCreatedInstrument (track_num : Z)
  | InfoDefaultInstrument
  (* notes *)
  | WarnNotDict (i : nat)
  | WarnNotDictEntry
  | WarnUnknownTrack (track : Z)
  | WarnTrackOutOfRange (track num_tracks : Z)
  | WarnClampedDuration (min_duration_sec : Qc)
  | SkipKeyError
  | SkipTypeValueError (e : exn)
  | SkipException (e : exn)
  (* output *)
  | InfoAddedInstrument (track_num : Z) (n : nat)
  | InfoSkipEmptyInstrument (track_num : Z)
  | InfoProcessed (note_count skipped_count : nat).

Global Instance diag_eq_dec : EqDecision diag.
Proof. solve_decision. Defined.

(** ** json_to_midi.py *)

Module JsonToMidi.

(** The loop at the head of [get_time_from_beat]: the first [i] with
    [beat_time_map[i][0] <= target_beat < beat_time_map[i+1][0]], else the
    last index.  [i] is the index of the head of [l]. *)
Fixpoint search_segment (target_beat : Qc) (l : list (Qc * Qc)) (i : nat) : nat :=
  match l with
  | p :: ((p' :: _) as l') =>
      if decide (p.1 ≤ target_beat ∧ target_beat < p'.1) then i
      else search_segment target_beat l' (S i)
  | _ => i
  end.

Definition get_time_from_beat (target_beat : Qc)
    (beat_time_map : list (Qc * Qc)) (tempo_map_dict : gmap Qc Qc)
    : Qc * list diag :=
  match beat_time_map with
  | [] =>
      let bpm := num 120 in
      (target_beat * num 60 / bpm, [WarnEmptyBeatTimeMap])
  | _ :: _ =>
      let map_idx := search_segment target_beat beat_time_map 0 in
      match beat_time_map !! map_idx with
      | Some (seg_start_beat, seg_start_time) =>
          let active_bpm := default (num 120) (tempo_map_dict !! seg_start_beat) in
          let beat_offset := target_beat - seg_start_beat in
          if decide (0 < active_bpm) then
            (seg_start_time + beat_offset * num 60 / active_bpm, [])
          else
            (seg_start_time + 0, [WarnNonPositiveBpm active_bpm seg_start_beat])
      | None => (0, []) (* not reached: [map_idx] is a valid index *)
      end
  end.

(** *** The tempo map: sorting and the beat-0 event *)

(** [{"beat": 0.0, "bpm": 120.0}] *)
Definition default_event : gmap string json :=
  {[ "beat" := JNum 0; "bpm" := JNum (num 120) ]}.

(** The sort key, [float(x.get('beat', 0.0))]. *)
Definition event_beat_key (event : gmap string json) : result Qc :=
  float (get event "beat" (JNum 0)).

(** Lines 90-92: every event is a dictionary, and the list is sorted by
    [float(x.get('beat', 0.0))]. *)
Definition sort_tempo_map (tempo_map : list json)
    : result (list (gmap string json)) :=
  events ← traverse (λ v, from_option Ok (Raise TypeError) (as_dict v)) tempo_map;
  keys ← traverse event_beat_key events;
  Ok (sort_by_key fst (zip keys events)).*2.

(** Lines 94-98: a default event is put before a first event after beat 0. *)
Definition ensure_beat_zero (tempo_map : list (gmap string json))
    : result (list (gmap string json) * list diag) :=
  match tempo_map with
  | [] => Raise IndexError
  | first :: _ =>
      above ← gt (get first "beat" (JNum 0)) 0;
      if (above : bool)
      then Ok (default_event :: tempo_map, [WarnNoTempoAtZero])
      else Ok (tempo_map, [])
  end.

(** The [try] block of lines 88-98; an exception makes [json_to_midi]
    return. *)
Definition prepare_tempo_map (tempo_map : list json)
    : result (list (gmap string json) * list diag) :=
  sort_tempo_map tempo_map ≫= ensure_beat_zero.

(** *** The beat-to-time table *)

Record build_state : Type := BuildState {
  beat_time_map : list (Qc * Qc);
  tempo_map_dict : gmap Qc Qc;
  current_time_sec : Qc;
  last_beat : Qc;
  last_bpm : Qc;
  build_log : list diag
}.

Definition build_init : build_state :=
  {| beat_time_map := [(0, 0)];
     tempo_map_dict := ∅;
     current_time_sec := 0;
     last_beat := 0;
     last_bpm := num 120;
     build_log := [] |}.

Definition build_warn (st : build_state) (w : list diag) : build_state :=
  {| beat_time_map := beat_time_map st;
     tempo_map_dict := tempo_map_dict st;
     current_time_sec := current_time_sec st;
     last_beat := last_beat st;
     last_bpm := last_bpm st;
     build_log := build_log st ++ w |}.

(** One iteration of the loop of lines 111-145.  The two conversions are
    all that can raise, a [TypeError] or a [ValueError], and the loop catches
    both. *)
Definition tempo_step (st : build_state) (i : nat) (event : gmap string json)
    : build_state :=
  match
    event_beat ← float (get event "beat" (JNum 0));
    event_bpm ← float (get event "bpm" (JNum (num 120)));
    Ok (event_beat, event_bpm)
  with
  | Raise e => build_warn st [WarnSkipTempoEvent e]
  | Ok (event_beat, event_bpm0) =>
      if decide (event_beat < last_beat st) then
        build_warn st [WarnTempoNotSorted i event_beat (last_beat st)]
      else
        let '(event_bpm, w1) :=
          if decide (event_bpm0 ≤ 0)
          then (num 120, [WarnTempoBpmCoerced event_bpm0 event_beat])
          else (event_bpm0, []) in
        let '(time, w2) :=
          if decide (i = 0%nat) then (current_time_sec st, [])
          else
            let beat_diff := event_beat - last_beat st in
            if decide (0 < last_bpm st)
            then (current_time_sec st + beat_diff * num 60 / last_bpm st, [])
            else (current_time_sec st, [WarnPreviousBpmInvalid]) in
        let '(btm, dict) :=
          if decide (last_beat st < event_beat ∨ i = 0%nat)
          then (beat_time_map st ++ [(event_beat, time)],
                <[event_beat := event_bpm]> (tempo_map_dict st))
          else (beat_time_map st, tempo_map_dict st) in
        {| beat_time_map := btm;
           tempo_map_dict := dict;
           current_time_sec := time;
           last_beat := event_beat;
           last_bpm := event_bpm;
           build_log := build_log st ++ w1 ++ w2 |}
  end.

(** [for i, event in enumerate(tempo_map)], from index [i] on. *)
Fixpoint tempo_loop (st : build_state) (i : nat)
    (tempo_map : list (gmap string json)) : build_state :=
  match tempo_map with
  | [] => st
  | event :: rest => tempo_loop (tempo_step st i event) (S i) rest
  end.

Definition build_beat_time_map (tempo_map : list (gmap string json)) : build_state :=
  tempo_loop build_init 0 tempo_map.

(** *** Instruments (tracks) *)

Record midi_note : Type := MidiNote {
  velocity : Z;
  pitch : Z;
  start : Qc;
  end_ : Qc
}.

Global Instance midi_note_eq_dec : EqDecision midi_note.
Proof. solve_decision. Defined.

(** [set(int(note.get('track', 0)) for note in notes_data
         if isinstance(note, dict) and 'track' in note)];
    an exception of [int] is not caught. *)
Fixpoint note_tracks (notes_data : list json) : result (gset Z) :=
  match notes_data with
  | [] => Ok ∅
  | note :: rest =>
      match as_dict note ≫= (.!! "track") with
      | Some v => t ← int v; s ← note_tracks rest; Ok ({[t]} ∪ s)
      | None => note_tracks rest
      end
  end.

(** An instrument is identified with the list of its notes; [program],
    [is_drum] and [name] are fixed by the track number. *)
Definition create_step (acc : gmap Z (list midi_note) * list diag) (track_num : Z)
    : gmap Z (list midi_note) * list diag :=
  if decide (track_num < 0)%Z
  then (acc.1, acc.2 ++ [WarnNegativeTrack track_num])
  else (<[track_num := []]> acc.1, acc.2 ++ [InfoCreatedInstrument track_num]).

Definition create_instruments (tracks : gset Z)
    : gmap Z (list midi_note) * list diag :=
  let '(instruments, log) :=
    foldl create_step (∅, []) (merge_sort Z.le (elements tracks)) in
  if decide (instruments = ∅)
  then ({[ 0%Z := [] ]}, log ++ [InfoDefaultInstrument])
  else (instruments, log).

(** *** Notes *)

Record notes_state : Type := NotesState {
  instruments : gmap Z (list midi_note);
  notes_added_to_track : gmap Z nat;
  note_count : nat;
  skipped_count : nat;
  notes_log : list diag
}.

Definition notes_init (instruments : gmap Z (list midi_note)) : notes_state :=
  {| instruments := instruments;
     notes_added_to_track := (λ _, 0%nat) <$> instruments;
     note_count := 0;
     skipped_count := 0;
     notes_log := [] |}.

(** [skipped_count += 1] after the messages [w]. *)
Definition skip_note (st : notes_state) (w : list diag) : notes_state :=
  {| instruments := instruments st;
     notes_added_to_track := notes_added_to_track st;
     note_count := note_count st;
     skipped_count := S (skipped_count st);
     notes_log := notes_log st ++ w |}.

(** Lines 222-232: the note joins its instrument. *)
Definition add_note (st : notes_state) (track : Z) (n : midi_note)
    (w : list diag) : notes_state :=
  {| instruments := alter (λ notes, notes ++ [n]) track (instruments st);
     notes_added_to_track := alter S track (notes_added_to_track st);
     note_count := S (note_count st);
     skipped_count := skipped_count st;
     notes_log := notes_log st ++ w |}.

Definition min_duration_sec : Qc := num 1 / num 1000.

Record note_fields : Type := NoteFields {
  nf_pitch : Z;
  nf_start_beat : Qc;
  nf_duration_beat : Qc;
  nf_velocity : Z;
  nf_track : Z
}.

(** Lines 184-189, "Extract data". *)
Definition extract_note (note : gmap string json) : result note_fields :=
  pitch ← getitem note "pitch" ≫= int;
  start_beat ← getitem note "start_beat" ≫= float;
  duration_beat ← getitem note "duration_beat" ≫= float;
  velocity ← int (get note "velocity" (JNum (num 100)));
  track ← int (get note "track" (JNum 0));
  Ok {| nf_pitch := pitch; nf_start_beat := start_beat;
        nf_duration_beat := duration_beat; nf_velocity := velocity;
        nf_track := track |}.

(** Lines 192-227, from "Basic Validation" to the creation of the note:
    [Ok None] is the [continue] of the unknown-track branch.  The comparison
    of the two times and the sum [start_time + min_duration_sec] are exact
    here and rounded in Python, where adding a millisecond to a large time
    can leave it unchanged. *)
Definition convert_note (instruments : gmap Z (list midi_note))
    (beat_time_map : list (Qc * Qc)) (tempo_map_dict : gmap Qc Qc)
    (f : note_fields) : result (option (Z * midi_note) * list diag) :=
  if negb (bool_decide (0 ≤ nf_pitch f ≤ 127)%Z) then Raise ValueError else
  if negb (bool_decide (0 ≤ nf_velocity f ≤ 127)%Z) then Raise ValueError else
  if decide (nf_start_beat f < 0) then Raise ValueError else
  if decide (nf_duration_beat f ≤ 0) then Raise ValueError else
  if decide (instruments !! nf_track f = None) then
    Ok (None, [WarnUnknownTrack (nf_track f)])
  else
    let '(start_time, w1) :=
      get_time_from_beat (nf_start_beat f) beat_time_map tempo_map_dict in
    let '(end_time0, w2) :=
      get_time_from_beat (nf_start_beat f + nf_duration_beat f)
        beat_time_map tempo_map_dict in
    let '(end_time, w3) :=
      if decide (end_time0 ≤ start_time)
      then (start_time + min_duration_sec, [WarnClampedDuration min_duration_sec])
      else (end_time0, []) in
    Ok (Some (nf_track f,
              {| velocity := nf_velocity f; pitch := nf_pitch f;
                 start := start_time; end_ := end_time |}),
        w1 ++ w2 ++ w3).

(** The body of the [try] of lines 183-227. *)
Definition note_body (instruments : gmap Z (list midi_note))
    (beat_time_map : list (Qc * Qc)) (tempo_map_dict : gmap Qc Qc)
    (note : gmap string json)
    : result (option (Z * midi_note) * list diag) :=
  extract_note note ≫= convert_note instruments beat_time_map tempo_map_dict.

(** One iteration of the loop of lines 177-242. *)
Definition note_step (beat_time_map : list (Qc * Qc)) (tempo_map_dict : gmap Qc Qc)
    (st : notes_state) (i : nat) (note : json) : notes_state :=
  match note with
  | JObj d =>
      match note_body (instruments st) beat_time_map tempo_map_dict d with
      | Ok (Some (track, n), w) => add_note st track n w
      | Ok (None, w) => skip_note st w
      | Raise KeyError => skip_note st [SkipKeyError]
      | Raise (TypeError as e) | Raise (ValueError as e) =>
          skip_note st [SkipTypeValueError e]
      | Raise e => skip_note st [SkipException e]
      end
  | _ => skip_note st [WarnNotDict i]
  end.

(** [for i, note in enumerate(notes_data)], from index [i] on. *)
Fixpoint notes_loop (beat_time_map : list (Qc * Qc)) (tempo_map_dict : gmap Qc Qc)
    (st : notes_state) (i : nat) (notes_data : list json) : notes_state :=
  match notes_data with
  | [] => st
  | note :: rest =>
      notes_loop beat_time_map tempo_map_dict
        (note_step beat_time_map tempo_map_dict st i note) (S i) rest
  end.

(** Lines 244-250: the instruments that received a note, by track number. *)
Definition collect_step (st : notes_state)
    (acc : list (Z * list midi_note) * list diag) (track_num : Z)
    : list (Z * list midi_note) * list diag :=
  let added := default 0%nat (notes_added_to_track st !! track_num) in
  if decide (0 < added)%nat
  then (acc.1 ++ [(track_num, default [] (instruments st !! track_num))],
        acc.2 ++ [InfoAddedInstrument track_num added])
  else (acc.1, acc.2 ++ [InfoSkipEmptyInstrument track_num]).

Definition collect_instruments (st : notes_state)
    : list (Z * list midi_note) * list diag :=
  foldl (collect_step st) ([], [])
    (merge_sort Z.le (elements (dom (instruments st)))).

(** *** The conversion *)

(** What a run ends in: an early [return], an exception nobody catches, or
    the call of [pm.write] on the instruments collected. *)
Inductive outcome : Type :=
  | Returned (log : list diag)
  | Uncaught (e : exn) (log : list diag)
  | Written (pm : list (Z * list midi_note))
      (note_count skipped_count : nat) (log : list diag).

Global Instance outcome_eq_dec : EqDecision outcome.
Proof. solve_decision. Defined.

(** Lines 67-85, on the document [json.load] returned. *)
Definition extract (input_data : json)
    : list diag + (list json * list json * list diag) :=
  match input_data with
  | JObj d =>
      match d !! "notes", d !! "tempo_map" with
      | Some notes_data, Some tempo_map =>
          match notes_data with
          | JArr notes =>
              match tempo_map with
              | JArr ((_ :: _) as events) => inr (notes, events, [])
              | _ => inr (notes, [JObj default_event],
                          [ErrTempoMapEmpty; WarnTempoMapDefault])
              end
          | _ => inl [ErrNotesNotList]
          end
      | _, _ => inl [ErrMissingKeys]
      end
  | _ => inl [ErrMissingKeys]
  end.

Definition json_to_midi (input_data : json) : outcome :=
  match extract input_data with
  | inl log => Returned log
  | inr (notes_data, tempo_map, log0) =>
      match prepare_tempo_map tempo_map with
      | Raise (TypeError as e) | Raise (ValueError as e) | Raise (KeyError as e) =>
          Returned (log0 ++ [ErrTempoMapInvalid e])
      | Raise e => Uncaught e log0
      | Ok (events, log1) =>
          let bst := build_beat_time_map events in
          let log := log0 ++ log1 ++ build_log bst in
          match note_tracks notes_data with
          | Raise e => Uncaught e log
          | Ok tracks =>
              let '(instruments, log2) := create_instruments tracks in
              let st :=
                notes_loop (beat_time_map bst) (tempo_map_dict bst)
                  (notes_init instruments) 0 notes_data in
              let '(pm, log3) := collect_instruments st in
              Written pm (note_count st) (skipped_count st)
                (log ++ log2 ++ notes_log st ++ log3
                 ++ [InfoProcessed (note_count st) (skipped_count st)])
          end
      end
  end.

End JsonToMidi.

(** ** json_to_midi_WORKING.py *)

Module JsonToMidiWorking.

Definition DEFAULT_RESOLUTION : Z := 480.

(** Lines 41-58: the document is refused when the tempo map is missing or
    empty. *)
Definition extract (input_data : json)
    : list diag + (list json * list json * json) :=
  match input_data with
  | JObj d =>
      match d !! "notes", d !! "tempo_map" with
      | Some notes_data, Some tempo_map =>
          let resolution := get d "resolution" (JNum (num DEFAULT_RESOLUTION)) in
          match notes_data with
          | JArr notes =>
              match tempo_map with
              | JArr ((_ :: _) as events) => inr (notes, events, resolution)
              | _ => inl [ErrTempoMapEmpty]
              end
          | _ => inl [ErrNotesNotList]
          end
      | _, _ => inl [ErrMissingKeys]
      end
  | _ => inl [ErrMissingKeys]
  end.

(** The arguments of [midi_file.addNote]. *)
Record add_note_args : Type := AddNote {
  an_track : Z;
  an_channel : Z;
  an_pitch : Z;
  an_time : Qc;
  an_duration : Qc;
  an_volume : Z
}.

Record note_fields : Type := NoteFields {
  nf_pitch : Z;
  nf_start_beat : Qc;
  nf_duration_beat : Qc;
  nf_track : Z;
  nf_channel : Z;
  nf_velocity : Z
}.

(** Lines 100-108, the required and the optional fields. *)
Definition extract_note (note : gmap string json) : result note_fields :=
  pitch ← getitem note "pitch" ≫= int;
  start_beat ← getitem note "start_beat" ≫= float;
  duration_beat ← getitem note "duration_beat" ≫= float;
  track ← int (get note "track" (JNum 0));
  channel ← int (get note "channel" (JNum 0));
  velocity ← int (get note "velocity" (JNum (num 100)));
  Ok {| nf_pitch := pitch; nf_start_beat := start_beat;
        nf_duration_beat := duration_beat; nf_track := track;
        nf_channel := channel; nf_velocity := velocity |}.

(** Lines 110-123, "Basic Validation"; the warning printed before an
    exception is kept. *)
Definition check_note (num_tracks : Z) (f : note_fields)
    : list diag * result add_note_args :=
  if negb (bool_decide (0 ≤ nf_pitch f ≤ 127)%Z) then ([], Raise ValueError) else
  if negb (bool_decide (0 ≤ nf_velocity f ≤ 127)%Z) then ([], Raise ValueError) else
  if negb (bool_decide (0 ≤ nf_channel f ≤ 15)%Z) then ([], Raise ValueError) else
  let w :=
    if decide (nf_track f < 0 ∨ num_tracks ≤ nf_track f)%Z
    then [WarnTrackOutOfRange (nf_track f) num_tracks] else [] in
  if decide (nf_start_beat f < 0 ∨ nf_duration_beat f ≤ 0)
  then (w, Raise ValueError)
  else
    (w, Ok {| an_track := nf_track f; an_channel := nf_channel f;
              an_pitch := nf_pitch f; an_time := nf_start_beat f;
              an_duration := nf_duration_beat f; an_volume := nf_velocity f |}).

(** The body of the [try] of lines 99-123, up to the call of [addNote]. *)
Definition note_body (num_tracks : Z) (note : gmap string json)
    : list diag * result add_note_args :=
  match extract_note note with
  | Raise e => ([], Raise e)
  | Ok f => check_note num_tracks f
  end.

Record notes_state (MF : Type) : Type := NotesState {
  midi_file : MF;
  note_count : nat;
  skipped_count : nat;
  notes_log : list diag
}.
Global Arguments NotesState {MF} _ _ _ _.
Global Arguments midi_file {MF} _.
Global Arguments note_count {MF} _.
Global Arguments skipped_count {MF} _.
Global Arguments notes_log {MF} _.

Definition skip_note {MF} (st : notes_state MF) (w : list diag) : notes_state MF :=
  {| midi_file := midi_file st;
     note_count := note_count st;
     skipped_count := S (skipped_count st);
     notes_log := notes_log st ++ w |}.

(** One iteration of the loop of lines 93-138.  [addNote] belongs to
    [midiutil]: it is a parameter, on the state [MF] of the [MIDIFile]
    object, and may raise. *)
Definition note_step {MF} (addNote : MF → add_note_args → result MF)
    (num_tracks : Z) (st : notes_state MF) (note : json) : notes_state MF :=
  match note with
  | JObj d =>
      let '(w, r) := note_body num_tracks d in
      match r ≫= addNote (midi_file st) with
      | Ok mf =>
          {| midi_file := mf;
             note_count := S (note_count st);
             skipped_count := skipped_count st;
             notes_log := notes_log st ++ w |}
      | Raise KeyError => skip_note st (w ++ [SkipKeyError])
      | Raise (TypeError as e) | Raise (ValueError as e) =>
          skip_note st (w ++ [SkipTypeValueError e])
      | Raise e => skip_note st (w ++ [SkipException e])
      end
  | _ => skip_note st [WarnNotDictEntry]
  end.

Definition notes_loop {MF} (addNote : MF → add_note_args → result MF)
    (num_tracks : Z) (st : notes_state MF) (notes_data : list json)
    : notes_state MF :=
  foldl (note_step addNote num_tracks) st notes_data.

End JsonToMidiWorking.

(** ** midi_to_json.py *)

Module MidiToJson.

(** What the converter reads from the [pretty_midi.PrettyMIDI] object the
    file was loaded into. *)
Record pm_note : Type := PmNote {
  pm_pitch : Z;
  pm_velocity : Z;
  pm_start : Qc;
  pm_end : Qc
}.

Record PrettyMIDI : Type := {
  resolution : Z;
  get_tempo_changes : result (list Qc * list Qc);
  time_to_tick : Qc → result Z;
  pm_instruments : list (list pm_note)
}.

Definition ticks_to_beats (ticks : Z) (resolution : Z) : result Qc :=
  if decide (resolution = 0%Z) then Raise ZeroDivisionError
  else Ok (num ticks / num resolution).

Record tempo_entry : Type := TempoEntry {
  beat : Qc;
  bpm : Qc
}.

Global Instance tempo_entry_eq_dec : EqDecision tempo_entry.
Proof. solve_decision. Defined.

Definition default_entry : tempo_entry := {| beat := 0; bpm := num 120 |}.

(** Lines 49-57: the tempo changes of the file, in beats, sorted. *)
Definition sorted_tempo_map (pm : PrettyMIDI) : result (list tempo_entry) :=
  '(tempo_change_times, tempo_change_bpm) ← get_tempo_changes pm;
  tempo_change_ticks ← traverse (time_to_tick pm) tempo_change_times;
  tempo_change_beats ←
    traverse (λ tick, ticks_to_beats tick (resolution pm)) tempo_change_ticks;
  Ok (sort_by_key beat (zip_with TempoEntry tempo_change_beats tempo_change_bpm)).

(** Lines 58-62: an event at beat 0 is put before a first event after beat
    0, with the tempo of that first event (120 when there is none). *)
Definition ensure_beat_zero (tempo_map : list tempo_entry) : list tempo_entry :=
  match tempo_map with
  | [] => [ {| beat := 0; bpm := num 120 |} ]
  | first :: _ =>
      if decide (0 < beat first)
      then {| beat := 0; bpm := bpm first |} :: tempo_map
      else tempo_map
  end.

(** The [try] block of lines 48-62. *)
Definition read_tempo_map (pm : PrettyMIDI) : result (list tempo_entry) :=
  tempo_map ← sorted_tempo_map pm; Ok (ensure_beat_zero tempo_map).

(** Lines 47-68: when the block raises, [tempo_map] is still the empty list
    of line 47 and receives the default event. *)
Definition tempo_map_of (pm : PrettyMIDI) : list tempo_entry * list diag :=
  match read_tempo_map pm with
  | Ok tempo_map => (tempo_map, [])
  | Raise e => ([default_entry], [WarnTempoUnreadable e])
  end.

Record note_data : Type := NoteData {
  nd_pitch : Z;
  nd_start_beat : Qc;
  nd_duration_beat : Qc;
  nd_velocity : Z;
  nd_track : nat
}.

(** Lines 75-94, for one note of instrument [instrument_num]. *)
Definition convert_note (pm : PrettyMIDI) (instrument_num : nat) (note : pm_note)
    : result note_data :=
  start_tick ← time_to_tick pm (pm_start note);
  end_tick ← time_to_tick pm (pm_end note);
  start_beat ← ticks_to_beats start_tick (resolution pm);
  end_beat ← ticks_to_beats end_tick (resolution pm);
  let duration_beat := end_beat - start_beat in
  duration_beat ←
    (if decide (duration_beat ≤ 0) then ticks_to_beats 1 (resolution pm)
     else Ok duration_beat);
  Ok {| nd_pitch := pm_pitch note;
        nd_start_beat := start_beat;
        nd_duration_beat := duration_beat;
        nd_velocity := pm_velocity note;
        nd_track := instrument_num |}.

(** [for instrument_num, instrument in enumerate(pm.instruments)], from
    index [instrument_num] on. *)
Fixpoint convert_instruments (pm : PrettyMIDI) (instrument_num : nat)
    (instruments : list (list pm_note)) : result (list note_data) :=
  match instruments with
  | [] => Ok []
  | instrument :: rest =>
      notes ← traverse (convert_note pm instrument_num) instrument;
      others ← convert_instruments pm (S instrument_num) rest;
      Ok (notes ++ others)
  end.

Record output_data : Type := OutputData {
  out_resolution : Z;
  out_tempo_map : list tempo_entry;
  out_notes : list note_data
}.

(** [midi_to_json] from the loaded file to the document handed to
    [json.dumps]; [Raise] is an exception nobody catches. *)
Definition midi_to_json (pm : PrettyMIDI) : result (output_data * list diag) :=
  let '(tempo_map, log) := tempo_map_of pm in
  all_notes_data ← convert_instruments pm 0 (pm_instruments pm);
  Ok ({| out_resolution := resolution pm;
         out_tempo_map := tempo_map;
         out_notes := sort_by_key nd_start_beat all_notes_data |}, log).

End MidiToJson.

(** * Vocabulary of the properties *)

Import JsonToMidi.

Module W := JsonToMidiWorking.

(** ** Inputs and what is observed *)

(** A tempo event with both keys, as the JSON document gives it. *)
Definition tempo_event (e : Qc * Qc) : gmap string json :=
  {[ "beat" := JNum e.1; "bpm" := JNum e.2 ]}.

(** A JSON object from its members. *)
Definition obj (members : list (string * json)) : json :=
  JObj (list_to_map members).

(** [beat_to_time tm b]: the time the converter gives beat [b] under the
    tempo events [tm]. *)
Definition beat_to_time (tm : list (Qc * Qc)) (b : Qc) : Qc :=
  let st := build_beat_time_map (tempo_event <$> tm) in
  (get_time_from_beat b (beat_time_map st) (tempo_map_dict st)).1.

(** ** The table of a tempo map *)

(** The tempo a step keeps for an event: lines 119-121. *)
Definition coerce_bpm (event_bpm : Qc) : Qc :=
  if decide (event_bpm ≤ 0) then num 120 else event_bpm.

(** The time [get_time_from_beat] computes from the point [seg] of the
    table: lines 27-44. *)
Definition segment_time (tempo_map_dict : gmap Qc Qc) (seg : Qc * Qc)
    (target_beat : Qc) : Qc :=
  let active_bpm := default (num 120) (tempo_map_dict !! seg.1) in
  if decide (0 < active_bpm)
  then seg.2 + (target_beat - seg.1) * num 60 / active_bpm
  else seg.2 + 0.

(** The point the search ends on, by recursion on the table. *)
Fixpoint find_segment (target_beat : Qc) (l : list (Qc * Qc)) : option (Qc * Qc) :=
  match l with
  | [] => None
  | p :: l' =>
      match l' with
      | [] => Some p
      | p' :: _ =>
          if decide (p.1 ≤ target_beat ∧ target_beat < p'.1) then Some p
          else find_segment target_beat l'
      end
  end.

(** Consecutive points of a table: the second is not before the first, in
    beats, nor before the time the segment of the first gives its beat. *)
Definition follows (dict : gmap Qc Qc) (x y : Qc * Qc) : Prop :=
  x.1 ≤ y.1 ∧ segment_time dict x y.1 ≤ y.2.

(** What a table answers; 0 stands for the empty table, which has its own
    branch in [get_time_from_beat]. *)
Definition table_time (dict : gmap Qc Qc) (l : list (Qc * Qc)) (target_beat : Qc) : Qc :=
  from_option (λ seg, segment_time dict seg target_beat) 0
    (find_segment target_beat l).

(** The invariant of the tempo loop on a tempo map without a faster
    duplicate: the table is a chain of [follows], from (0, 0) to the last
    beat and the current time, and the tempo that accumulates the next time
    is at most the tempo the dictionary gives the last beat. *)
Record table_ok (st : build_state) : Prop := TableOk {
  table_sorted : Sorted (follows (tempo_map_dict st)) (beat_time_map st);
  table_head : head (beat_time_map st) = Some (0, 0);
  table_last : last (beat_time_map st) = Some (last_beat st, current_time_sec st);
  table_beats : Forall (λ a, a.1 ≤ last_beat st) (beat_time_map st);
  table_bpm : last_bpm st ≤ default (num 120) (tempo_map_dict st !! last_beat st);
  table_bpm_pos : 0 < last_bpm st
}.

(** ** Tempo maps *)

(** A canonical tempo map: ascending beats, the first at 0, positive
    tempos. *)
Definition canonical (tm : list (Qc * Qc)) : Prop :=
  Sorted (≤) tm.*1 ∧ head tm.*1 = Some 0 ∧ Forall (λ e, 0 < e.2) tm.

Global Instance canonical_dec tm : Decision (canonical tm).
Proof. unfold canonical. apply _. Defined.

(** Consecutive events: the second is on a later beat, or on the same beat
    with a tempo that is not faster. *)
Definition no_faster (e1 e2 : Qc * Qc) : Prop :=
  e1.1 < e2.1 ∨ (e1.1 = e2.1 ∧ coerce_bpm e2.2 ≤ coerce_bpm e1.2).

Global Instance no_faster_dec : RelDecision no_faster.
Proof. intros e1 e2. unfold no_faster. apply _. Defined.

(** ** Notes *)

(** [note] is a dictionary with a ['track'] key that [int] reads as [t]. *)
Definition explicit_track (note : json) (t : Z) : Prop :=
  ∃ v, as_dict note ≫= (.!! "track") = Some v ∧ int v = Ok t.


(** ** The notes [midi_to_json.py] emits *)

(** The notes of the file, each with the index of its instrument, in the
    order of the two loops of lines 72-73. *)
Fixpoint tagged_notes (instrument_num : nat)
    (instruments : list (list MidiToJson.pm_note))
    : list (nat * MidiToJson.pm_note) :=
  match instruments with
  | [] => []
  | instrument :: rest =>
      (pair instrument_num <$> instrument) ++ tagged_notes (S instrument_num) rest
  end.

(** What the claim expects of the note emitted for [note], whose start and
    end are at [start_tick] and [end_tick]: the difference of the two beats
    as duration, and one tick, [1 / resolution], when that difference is
    not positive. *)
Definition one_tick_rule (resolution : Z) (instrument_num : nat)
    (note : MidiToJson.pm_note) (start_tick end_tick : Z) : MidiToJson.note_data :=
  let start_beat := num start_tick / num resolution in
  let end_beat := num end_tick / num resolution in
  {| MidiToJson.nd_pitch := MidiToJson.pm_pitch note;
     MidiToJson.nd_start_beat := start_beat;
     MidiToJson.nd_duration_beat :=
       if decide (end_beat - start_beat ≤ 0) then num 1 / num resolution
       else end_beat - start_beat;
     MidiToJson.nd_velocity := MidiToJson.pm_velocity note;
     MidiToJson.nd_track := instrument_num |}.

(** ** Scenarios *)

(** Scenario A: 120 BPM from beat 0, 60 BPM from beat 4, and a note of 2
    beats at beat 4. *)
Definition scenario_A : list (Qc * Qc) := [(0, num 120); (num 4, num 60)].

Definition scenario_A_note : json :=
  obj [("pitch", JNum (num 60)); ("start_beat", JNum (num 4));
       ("duration_beat", JNum (num 2))].

Definition scenario_A_doc : json :=
  obj [("tempo_map", JArr (JObj ∘ tempo_event <$> scenario_A));
       ("notes", JArr [scenario_A_note])].



(** A document without notes and without tempo events. *)
Definition empty_tempo_doc : json :=
  obj [("notes", JArr []); ("tempo_map", JArr [])].

(** A file at 480 ticks per beat and 120 BPM, with a note of zero length
    and a note of one second. *)
Definition pm_short_note : MidiToJson.PrettyMIDI :=
  {| MidiToJson.resolution := 480;
     MidiToJson.get_tempo_changes := Ok ([0], [num 120]);
     MidiToJson.time_to_tick := λ t, Ok (trunc (t * num 960));
     MidiToJson.pm_instruments :=
       [[ MidiToJson.PmNote 60 100 (num 1) (num 1);
          MidiToJson.PmNote 64 90 (num 1) (num 2) ]] |}.

(** Tempo maps on which the conversion is not monotonic: a later, faster
    event on the beat of an earlier one; a beat before 0. *)
Definition faster_duplicate : list (Qc * Qc) :=
  [(0, num 120); (num 2, num 80); (num 2, num 100); (num 4, num 60)].

Definition faster_last : list (Qc * Qc) := [(0, num 60); (num 4, num 6000)].


(** A note from beat 3.9 to beat 4; under [faster_duplicate] its end comes
    before its start. *)
Definition clamped_note : gmap string json :=
  list_to_map [("pitch", JNum (num 60)); ("start_beat", JNum (num 39 / num 10));
               ("duration_beat", JNum (num 1 / num 10))].

Definition clamped_fields : note_fields :=
  {| nf_pitch := 60; nf_start_beat := num 39 / num 10;
     nf_duration_beat := num 1 / num 10; nf_velocity := 100; nf_track := 0 |}.

(** Notes on track -1, on track 1 and without a track. *)
Definition negative_track_note : json :=
  obj [("pitch", JNum (num 60)); ("start_beat", JNum 0);
       ("duration_beat", JNum (num 1)); ("track", JNum (- num 1))].

Definition track_one_note : json :=
  obj [("pitch", JNum (num 60)); ("start_beat", JNum 0);
       ("duration_beat", JNum (num 1)); ("track", JNum (num 1))].

Definition no_track_note : json :=
  obj [("pitch", JNum (num 64)); ("start_beat", JNum (num 1));
       ("duration_beat", JNum (num 1))].

Definition two_notes_doc : json :=
  obj [("tempo_map", JArr [JObj (tempo_event (0, num 120))]);
       ("notes", JArr [track_one_note; no_track_note])].

(** ** The numbers of the model *)

(** Numbers are exact in the model.  [DBL_MAX] is the largest finite double,
    [(2^53 - 1) * 2^971]: a JSON number that is at most [DBL_MAX] in absolute
    value is read as a finite number, and [float()] and [int()] return on it
    without [OverflowError]. *)
Definition DBL_MAX : Qc := num ((2 ^ 53 - 1) * 2 ^ 971).

Definition double_range (q : Qc) : Prop := - DBL_MAX ≤ q ∧ q ≤ DBL_MAX.

Global Instance double_range_dec q : Decision (double_range q).
Proof. unfold double_range. apply _. Defined.

(** A number that is a double as it stands, [m / 2^k] with [|m| <= 2^53] and
    [k <= 1021]: [float()] returns it without rounding, so that two such
    numbers that differ are read as two different doubles. *)
Definition exact_double (q : Qc) : Prop :=
  ∃ (m : Z) (k : nat),
    q = num m / num (2 ^ Z.of_nat k) ∧ (- 2 ^ 53 ≤ m ≤ 2 ^ 53)%Z ∧ (k ≤ 1021)%nat.

(** Tempo events given by numbers in the range of the doubles. *)
Definition finite_events (tm : list (Qc * Qc)) : Prop :=
  Forall (λ e, double_range e.1 ∧ double_range e.2) tm.

Global Instance finite_events_dec tm : Decision (finite_events tm).
Proof. unfold finite_events. apply _. Defined.


(** ** The tempo loop *)

(** What a step of the tempo loop does to the table, the messages apart: it
    leaves it as it is; or it adds the point of beat [b], which is after
    the last beat or is the first event of the list; or it only replaces
    the tempo that runs from the last beat. *)
Inductive tempo_step_effect (st : build_state) (i : nat) (st' : build_state) : Prop :=
  | step_skipped :
      beat_time_map st' = beat_time_map st →
      tempo_map_dict st' = tempo_map_dict st →
      current_time_sec st' = current_time_sec st →
      last_beat st' = last_beat st →
      last_bpm st' = last_bpm st →
      tempo_step_effect st i st'
  | step_anchor b p :
      last_beat st < b ∨ (last_beat st = b ∧ i = 0%nat) →
      beat_time_map st' = beat_time_map st ++ [(b, current_time_sec st')] →
      tempo_map_dict st' = <[b := coerce_bpm p]> (tempo_map_dict st) →
      current_time_sec st'
      = (if decide (i = 0%nat) then current_time_sec st
         else current_time_sec st + (b - last_beat st) * num 60 / last_bpm st) →
      last_beat st' = b →
      last_bpm st' = coerce_bpm p →
      tempo_step_effect st i st'
  | step_duplicate p :
      i ≠ 0%nat →
      beat_time_map st' = beat_time_map st →
      tempo_map_dict st' = tempo_map_dict st →
      current_time_sec st' = current_time_sec st →
      last_beat st' = last_beat st →
      last_bpm st' = coerce_bpm p →
      tempo_step_effect st i st'.

(** Consecutive points of a table, in beats and in seconds. *)
Definition anchor_le (x y : Qc * Qc) : Prop := x.1 ≤ y.1 ∧ x.2 ≤ y.2.

(** What the tempo loop keeps on every list of events: the table starts at
    (0, 0) and ends at the last beat and the current time; beats and times
    do not decrease along it and are not negative; a point at beat 0 is at
    0 seconds; every point after beat 0 has its tempo in the dictionary;
    every tempo is positive. *)
Record table_wf (st : build_state) : Prop := TableWf {
  wf_head : head (beat_time_map st) = Some (0, 0);
  wf_last : last (beat_time_map st) = Some (last_beat st, current_time_sec st);
  wf_sorted : Sorted anchor_le (beat_time_map st);
  wf_bounds :
    Forall (λ a, 0 ≤ a.1 ∧ a.1 ≤ last_beat st ∧ 0 ≤ a.2 ∧ a.2 ≤ current_time_sec st)
      (beat_time_map st);
  wf_zero : Forall (λ a, a.1 = 0 → a.2 = 0) (beat_time_map st);
  wf_keys : Forall (λ a, a.1 = 0 ∨ is_Some (tempo_map_dict st !! a.1)) (beat_time_map st);
  wf_dict : map_Forall (λ _ p, 0 < p) (tempo_map_dict st);
  wf_bpm : 0 < last_bpm st
}.

(** Tempo events in the order of their beats. *)
Definition beat_le (x y : Qc * Qc) : Prop := x.1 ≤ y.1.

Global Instance beat_le_trans : Transitive beat_le.
Proof. intros x y z. unfold beat_le. apply Qcle_trans. Defined.

(** The message of line 117, on an event before the last beat. *)
Definition not_sorted_warning (m : diag) : Prop :=
  ∃ i event_beat last_beat, m = WarnTempoNotSorted i event_beat last_beat.

(** ** The note loop *)

(** The range of a MIDI data byte, for the pitch and the velocity of a
    note. *)
Definition in_midi_range (n : midi_note) : Prop :=
  (0 ≤ pitch n ≤ 127)%Z ∧ (0 ≤ velocity n ≤ 127)%Z.

(** The invariant of the note loop over the instruments of the set [D] of
    tracks: no instrument comes or goes, the counter of a track is the
    length of its instrument, [note_count] is the number of notes in all
    instruments, and every note has its pitch and velocity in 0..127. *)
Record notes_inv (D : gset Z) (st : notes_state) : Prop := NotesInv {
  inv_dom : dom (instruments st) = D;
  inv_added : ∀ t, notes_added_to_track st !! t = length <$> instruments st !! t;
  inv_count :
    note_count st
    = sum_list_with (λ t, length (default [] (instruments st !! t)))
        (merge_sort Z.le (elements D));
  inv_ok : map_Forall (λ _ notes, Forall in_midi_range notes) (instruments st)
}.

(** ** Documents *)

(** A number, for [float()] and for a comparison with a float. *)
Definition numeric (v : json) : Prop :=
  match v with
  | JNum _ | JBool _ => True
  | _ => False
  end.



(** A note with its five keys: pitch, velocity and track are JSON integers,
    the two beats JSON numbers. *)
Definition note_record (pitch : Z) (start_beat duration_beat : Qc)
    (velocity track : Z) : gmap string json :=
  list_to_map
    [("pitch", JNum (num pitch)); ("start_beat", JNum start_beat);
     ("duration_beat", JNum duration_beat); ("velocity", JNum (num velocity));
     ("track", JNum (num track))].

(** The keys [json_to_midi.py] reads in a note. *)
Definition note_keys : list string :=
  ["pitch"; "start_beat"; "duration_beat"; "velocity"; "track"].

(** The note with [v] under the key [k], when it is a dictionary. *)
Definition with_key (k : string) (v : json) (note : json) : json :=
  match note with
  | JObj d => JObj (<[k := v]> d)
  | _ => note
  end.

(** ** The document [midi_to_json.py] writes *)

Module M := MidiToJson.

(** Line 55, an entry of the tempo map. *)
Definition entry_json (e : M.tempo_entry) : json :=
  JObj (tempo_event (M.beat e, M.bpm e)).

(** Lines 87-93, [note_data]. *)
Definition note_json (n : M.note_data) : json :=
  obj [("pitch", JNum (num (M.nd_pitch n)));
       ("start_beat", JNum (M.nd_start_beat n));
       ("duration_beat", JNum (M.nd_duration_beat n));
       ("velocity", JNum (num (M.nd_velocity n)));
       ("track", JNum (num (Z.of_nat (M.nd_track n))))].

(** Lines 101-105, [output_data], as [json.load] reads it back from the file
    [json.dumps] filled. *)
Definition document (out : M.output_data) : json :=
  obj [("resolution", JNum (num (M.out_resolution out)));
       ("tempo_map", JArr (entry_json <$> M.out_tempo_map out));
       ("notes", JArr (note_json <$> M.out_notes out))].

Global Instance note_data_eq_dec : EqDecision M.note_data.
Proof. solve_decision. Defined.

Global Instance output_data_eq_dec : EqDecision M.output_data.
Proof. solve_decision. Defined.

(** A note of the MIDI file that [json_to_midi.py] accepts once converted:
    pitch and velocity in 0..127, and a start that is not before tick 0. *)
Definition playable (pm : M.PrettyMIDI) (note : M.pm_note) : Prop :=
  (0 ≤ M.pm_pitch note ≤ 127)%Z ∧ (0 ≤ M.pm_velocity note ≤ 127)%Z
  ∧ match M.time_to_tick pm (M.pm_start note) with
    | Ok start_tick => (0 ≤ start_tick)%Z
    | Raise _ => True
    end.

Global Instance playable_dec pm note : Decision (playable pm note).
Proof. unfold playable. destruct (M.time_to_tick pm (M.pm_start note)); apply _. Defined.

(** ** notes_code.py *)

(** The script from the list under ['notes'] of the document it loads to
    the list it writes under ['notes'], lines 12-64: a note is any JSON
    value, and an exception ends the script before anything is written. *)
Module NotesCode.

(** An operand of [+], [*] or [/] with a number: a number, or the
    [TypeError] of the operator.  The arithmetic is exact: the
    [OverflowError] of Python on an integer beyond the doubles, and of
    [math.ceil] on an infinity, is outside the model. *)
Definition number (v : json) : result Qc :=
  match v with
  | JNum q => Ok q
  | JBool b => Ok (num (bool_num b))
  | _ => Raise TypeError
  end.

(** [math.ceil(q)] *)
Definition ceil (q : Qc) : Z := (- ((- Qnum q) `div` Zpos (Qden q)))%Z.

(** [max] of the values of a generator: the first of the largest ones. *)
Fixpoint max_from (best : Qc) (l : list Qc) : Qc :=
  match l with
  | [] => best
  | x :: l' => max_from (if decide (best < x) then x else best) l'
  end.

Definition max (l : list Qc) : result Qc :=
  match l with
  | [] => Raise ValueError
  | x :: l' => Ok (max_from x l')
  end.

(** The dictionary of an appended note. *)
Definition new_note (pitch : json) (start_beat duration_beat : Qc)
    (velocity track : json) : json :=
  obj [("pitch", pitch); ("start_beat", JNum start_beat);
       ("duration_beat", JNum duration_beat); ("velocity", velocity);
       ("track", track)].

(** Lines 13-49, the body of the loop: what it appends for [note].  The
    keys are read in the order of the script, ['pitch'] at line 23 for the
    first dictionary, before any arithmetic. *)
Definition variations (note : json) : result (list json) :=
  d ← from_option Ok (Raise TypeError) (as_dict note);
  start ← getitem d "start_beat";
  dur ← getitem d "duration_beat";
  vel ← getitem d "velocity";
  let track := get d "track" (JNum 0) in
  pitch ← getitem d "pitch";
  start ← number start;
  dur ← number dur;
  p ← number pitch;
  let repeated :=
    (λ i, new_note pitch (start + num i * dur / num 6) (dur / num 12) vel track)
    <$> seqZ 1 4 in
  let triad := [p + num 4; p + num 7] in
  let arpeggio :=
    imap (λ idx p, new_note (JNum p) (start + num (Z.of_nat idx) * (dur / num 4))
                     (dur / num 8) vel track) triad in
  let leap :=
    new_note (JNum (p + num 12)) (start + dur / num 2) (dur / num 8) vel track in
  Ok (note :: repeated ++ arpeggio ++ [leap]).

(** [n['start_beat'] + n['duration_beat']] of line 52; the loop has raised
    on every note for which the two are not numbers. *)
Definition note_end (n : json) : result Qc :=
  d ← from_option Ok (Raise TypeError) (as_dict n);
  start ← getitem d "start_beat";
  dur ← getitem d "duration_beat";
  start ← number start;
  dur ← number dur;
  Ok (start + dur).

(** Lines 53-61, the triplets over the beats [0 .. ceil(max_beat) - 1]. *)
Definition overlay (max_beat : Qc) : list json :=
  b ← seqZ 0 (ceil max_beat);
  i ← seqZ 0 3;
  [new_note (JNum (num (60 + b `mod` 12))) (num b + num i / num 3)
     (num 1 / num 3) (JNum (num 70)) (JNum (num 1))].

(** The sort key of line 64. *)
Definition start_beat_key (n : json) : result Qc :=
  d ← from_option Ok (Raise TypeError) (as_dict n);
  getitem d "start_beat" ≫= number.

(** Lines 12-64: [new_notes] when the script reaches line 66. *)
Definition new_notes (notes : list json) : result (list json) :=
  appended ← traverse variations notes;
  ends ← traverse note_end notes;
  max_beat ← max ends;
  let new_notes := concat appended ++ overlay max_beat in
  keys ← traverse start_beat_key new_notes;
  Ok (sort_by_key fst (zip keys new_notes)).*2.

End NotesCode.

Module NC := NotesCode.

(** A note the script can vary: a dictionary with numbers under
    ['start_beat'], ['duration_beat'] and ['pitch'], and with a
    ['velocity']. *)
Definition usable_note (note : json) : Prop :=
  ∃ d, note = JObj d
    ∧ (∃ v, d !! "start_beat" = Some v ∧ numeric v)
    ∧ (∃ v, d !! "duration_beat" = Some v ∧ numeric v)
    ∧ (∃ v, d !! "pitch" = Some v ∧ numeric v)
    ∧ is_Some (d !! "velocity").

(** The outcome of a run without the text of its messages. *)
Definition without_log (o : outcome) : outcome :=
  match o with
  | Returned _ => Returned []
  | Uncaught e _ => Uncaught e []
  | Written pm note_count skipped_count _ => Written pm note_count skipped_count []
  end.

(** ** More scenarios *)



(** Scenario A with its events in the other order. *)
Definition scenario_A_reversed : list (Qc * Qc) := [(num 4, num 60); (0, num 120)].

(** What the run on [two_notes_doc] hands to [pm.write], and prints. *)
Definition two_notes_dict : gmap string json :=
  list_to_map [("tempo_map", JArr [JObj (tempo_event (0, num 120))]);
               ("notes", JArr [track_one_note; no_track_note])].

Definition two_notes_written : list (Z * list midi_note) :=
  [(1%Z, [ {| velocity := 100; pitch := 60; start := 0; end_ := num 1 / num 2 |} ])].

Definition two_notes_log : list diag :=
  [InfoCreatedInstrument 1; WarnUnknownTrack 0; InfoAddedInstrument 1 1;
   InfoProcessed 1 1].


Definition number_in_tempo_map : gmap string json :=
  list_to_map [("tempo_map", JArr [JObj (tempo_event (0, num 120)); JNum (num 90)]);
               ("notes", JArr [])].

(** What [midi_to_json] makes of [pm_short_note]. *)
Definition pm_short_note_output : M.output_data :=
  {| M.out_resolution := 480;
     M.out_tempo_map := [ M.TempoEntry 0 (num 120) ];
     M.out_notes :=
       [ M.NoteData 60 (num 2) (num 1 / num 480) 100 0;
         M.NoteData 64 (num 2) (num 2) 90 0 ] |}.

(** A checked note on track 5 for the WORKING writer, and an [addNote] that
    keeps the list of its arguments. *)
Definition track_five_note : gmap string json :=
  list_to_map [("pitch", JNum (num 60)); ("start_beat", JNum (num 4));
               ("duration_beat", JNum (num 2)); ("track", JNum (num 5))].

Definition track_five_fields : W.note_fields :=
  {| W.nf_pitch := 60; W.nf_start_beat := num 4; W.nf_duration_beat := num 2;
     W.nf_track := 5; W.nf_channel := 0; W.nf_velocity := 100 |}.

Definition record_note (mf : list W.add_note_args) (args : W.add_note_args)
    : result (list W.add_note_args) :=
  Ok (mf ++ [args]).

(** A list with one note of one beat, and what the script makes of it. *)
Definition one_note : list json :=
  [obj [("pitch", JNum (num 60)); ("start_beat", JNum 0);
        ("duration_beat", JNum (num 1)); ("velocity", JNum (num 100))]].

Definition one_note_output : list json :=
  Eval vm_compute in
    match NC.new_notes one_note with
    | Ok new_notes => new_notes
    | Raise _ => []
    end.

(** * Properties *)

(** A closed goal over decidable propositions, settled by evaluation. *)
Ltac by_computation := apply (bool_decide_unpack _); vm_compute; exact I.

(** ** Scenario A *)

Example scenario_A_table :
  beat_time_map (build_beat_time_map (tempo_event <$> scenario_A))
  = [(0, 0); (0, 0); (num 4, num 2)].
Proof. by_computation. Qed.

(** C2: under the tempo map [{beat 0, bpm 120}, {beat 4, bpm 60}] beat 4 is
    at 2 seconds and beat 4 + 2 at 4 seconds, and the conversion of the
    document that holds a note with [start_beat = 4] and [duration_beat = 2]
    writes that note from 2.0 s to 4.0 s. *)
Theorem scenario_A_times :
  beat_to_time scenario_A (num 4) = num 2
  ∧ beat_to_time scenario_A (num 4 + num 2) = num 4
  ∧ json_to_midi scenario_A_doc
    = Written
        [(0%Z, [ {| velocity := 100; pitch := 60;
                    start := num 2; end_ := num 4 |} ])]
        1 0
        [InfoDefaultInstrument; InfoAddedInstrument 0 1; InfoProcessed 1 0].
Proof. repeat split; by_computation. Qed.

(** ** The empty tempo map *)

Lemma prepare_default_event :
  prepare_tempo_map [JObj default_event] = Ok ([default_event], []).
Proof. vm_compute. reflexivity. Qed.

(** C5: a tempo map that is the empty list is fatal where no fallback
    exists.  [json_to_midi_WORKING.py] has none (the line that would install
    a default is commented out, lines 55-56): it prints the error and
    returns at once, and nothing is written.  [json_to_midi.py] has a
    fallback in the script itself (lines 83-84): it prints the error and the
    warning that announces the default, goes on with the single event
    {beat 0, bpm 120}, does not return for this reason, and reaches
    [pm.write] whenever the track numbers of the notes can be read. *)
Theorem empty_tempo_map_handling (d : gmap string json) (notes : list json) :
  d !! "notes" = Some (JArr notes) →
  d !! "tempo_map" = Some (JArr []) →
  JsonToMidiWorking.extract (JObj d) = inl [ErrTempoMapEmpty]
  ∧ JsonToMidi.extract (JObj d)
    = inr (notes, [JObj default_event], [ErrTempoMapEmpty; WarnTempoMapDefault])
  ∧ (∀ log, json_to_midi (JObj d) ≠ Returned log)
  ∧ (∀ tracks, note_tracks notes = Ok tracks →
       ∃ pm n s log, json_to_midi (JObj d) = Written pm n s log).
Proof.
  intros Hnotes Htempo.
  assert (JsonToMidi.extract (JObj d)
          = inr (notes, [JObj default_event],
                 [ErrTempoMapEmpty; WarnTempoMapDefault])) as Hextract.
  { unfold JsonToMidi.extract. rewrite Hnotes, Htempo. reflexivity. }
  split; [|split; [exact Hextract|split]].
  - unfold JsonToMidiWorking.extract. rewrite Hnotes, Htempo. reflexivity.
  - intros log. unfold json_to_midi.
    rewrite Hextract, prepare_default_event.
    destruct (note_tracks notes) as [tracks|e]; [|discriminate].
    destruct (create_instruments tracks) as [ins log2].
    destruct (collect_instruments _) as [pm log3]. discriminate.
  - intros tracks Htracks. unfold json_to_midi.
    rewrite Hextract, prepare_default_event, Htracks.
    destruct (create_instruments tracks) as [ins log2].
    destruct (collect_instruments _) as [pm log3]. eauto.
Qed.

Lemma empty_tempo_map_handling_witness :
  JsonToMidiWorking.extract empty_tempo_doc = inl [ErrTempoMapEmpty]
  ∧ JsonToMidi.extract empty_tempo_doc
    = inr ([], [JObj default_event], [ErrTempoMapEmpty; WarnTempoMapDefault])
  ∧ (∀ log, json_to_midi empty_tempo_doc ≠ Returned log)
  ∧ (∀ tracks, note_tracks [] = Ok tracks →
       ∃ pm n s log, json_to_midi empty_tempo_doc = Written pm n s log).
Proof.
  apply (empty_tempo_map_handling
           (list_to_map [("notes", JArr []); ("tempo_map", JArr [])]) []);
    reflexivity.
Defined.

(** ** Dictionaries *)

Lemma get_Some (d : gmap string json) k v dflt : d !! k = Some v → get d k dflt = v.
Proof. unfold get. by intros ->. Qed.

Lemma get_None (d : gmap string json) k dflt : d !! k = None → get d k dflt = dflt.
Proof. unfold get. by intros ->. Qed.



(** ** Sorting by key *)

Section sort_by_key.
Context {A : Type} (key : A → Qc).

Lemma insert_by_key_Forall (P : A → Prop) x l :
  P x → Forall P l → Forall P (insert_by_key key x l).
Proof.
  intros Hx Hl. induction Hl as [|y l Hy Hl IH]; simpl.
  - by constructor.
  - case_decide; repeat constructor; done.
Qed.

Lemma sort_by_key_Forall (P : A → Prop) l :
  Forall P l → Forall P (sort_by_key key l).
Proof.
  induction 1; simpl; [constructor|]. by apply insert_by_key_Forall.
Qed.

Lemma insert_by_key_length x l :
  length (insert_by_key key x l) = S (length l).
Proof.
  induction l as [|y l IH]; [done|]. cbn [insert_by_key].
  case_decide; [done|]. cbn [length]. by rewrite IH.
Qed.

Lemma sort_by_key_length l : length (sort_by_key key l) = length l.
Proof.
  induction l as [|x l IH]; [done|]. cbn [sort_by_key].
  by rewrite insert_by_key_length, IH.
Qed.

Lemma insert_by_key_Sorted x l :
  Sorted (λ a b, key a ≤ key b) l →
  Sorted (λ a b, key a ≤ key b) (insert_by_key key x l).
Proof.
  induction 1 as [|y l Hsorted IH Hhd]; cbn [insert_by_key].
  - by repeat constructor.
  - case_decide as Hxy; [by repeat constructor|].
    constructor; [done|].
    assert (key y ≤ key x) as Hyx.
    { destruct (total Qcle (key x) (key y)); done. }
    destruct Hhd as [|z l' Hyz]; cbn [insert_by_key]; [by constructor|].
    case_decide; by constructor.
Qed.

Lemma sort_by_key_Sorted l : Sorted (λ a b, key a ≤ key b) (sort_by_key key l).
Proof.
  induction l as [|x l IH]; [constructor|]. by apply insert_by_key_Sorted.
Qed.

Lemma insert_by_key_fmap {B} (f : B → A) x l :
  insert_by_key key (f x) (f <$> l) = f <$> insert_by_key (key ∘ f) x l.
Proof.
  induction l as [|y l IH]; [done|].
  rewrite fmap_cons. cbn [insert_by_key compose].
  case_decide; rewrite !fmap_cons; [done|]. f_equal. exact IH.
Qed.

Lemma sort_by_key_fmap {B} (f : B → A) l :
  sort_by_key key (f <$> l) = f <$> sort_by_key (key ∘ f) l.
Proof.
  induction l as [|x l IH]; [done|].
  rewrite fmap_cons. cbn [sort_by_key].
  rewrite IH. apply insert_by_key_fmap.
Qed.
End sort_by_key.

Lemma traverse_Forall {A B} (f : A → result B) (P : B → Prop) l l' :
  (∀ x y, f x = Ok y → P y) → traverse f l = Ok l' → Forall P l'.
Proof.
  intros Hf. revert l'. induction l as [|x l IH]; simpl; intros l' Hl'.
  - injection Hl' as <-. constructor.
  - destruct (f x) as [y|] eqn:Hy; simpl in Hl'; [|discriminate].
    destruct (traverse f l) as [ys|]; simpl in Hl'; [|discriminate].
    injection Hl' as <-. constructor; eauto.
Qed.

Lemma traverse_length {A B} (f : A → result B) l l' :
  traverse f l = Ok l' → length l' = length l.
Proof.
  revert l'. induction l as [|x l IH]; cbn [traverse]; intros l' Hl'.
  - by injection Hl' as <-.
  - destruct (f x) as [y|]; cbn [mbind result_bind] in Hl'; [|done].
    destruct (traverse f l) as [ys|]; cbn [mbind result_bind] in Hl'; [|done].
    injection Hl' as <-. cbn [length]. by rewrite (IH ys).
Qed.

Lemma traverse_fmap_Ok {A B C} (g : C → A) (f : A → result B) (h : C → B) l :
  (∀ x, f (g x) = Ok (h x)) → traverse f (g <$> l) = Ok (h <$> l).
Proof.
  intros Hf. induction l as [|x l IH]; [done|].
  rewrite !fmap_cons. cbn [traverse]. by rewrite Hf, IH.
Qed.

Lemma zip_fmap_fmap {A B C} (f : A → B) (g : A → C) (l : list A) :
  zip (f <$> l) (g <$> l) = (λ x, (f x, g x)) <$> l.
Proof.
  induction l as [|x l IH]; [done|].
  rewrite !fmap_cons. cbn [zip_with]. f_equal. exact IH.
Qed.

(** Equal keys keep their input order. *)
Example sort_by_key_stable :
  sort_by_key fst [(num 2, "a"); (num 1, "b"); (num 2, "c"); (num 1, "d")]
  = [(num 1, "b"); (num 1, "d"); (num 2, "a"); (num 2, "c")].
Proof. by_computation. Qed.

(** ** The event at beat 0 *)

Lemma tempo_event_beat e : tempo_event e !! "beat" = Some (JNum e.1).
Proof. unfold tempo_event. by rewrite lookup_insert_eq. Qed.

Lemma tempo_event_bpm e : tempo_event e !! "bpm" = Some (JNum e.2).
Proof.
  unfold tempo_event. rewrite lookup_insert_ne by done.
  by rewrite lookup_singleton_eq.
Qed.

Lemma sort_tempo_map_events (tm : list (Qc * Qc)) :
  sort_tempo_map (JObj ∘ tempo_event <$> tm)
  = Ok (tempo_event <$> sort_by_key fst tm).
Proof.
  unfold sort_tempo_map.
  rewrite (traverse_fmap_Ok _ _ tempo_event) by done. simpl.
  rewrite (traverse_fmap_Ok _ _ fst) by done. simpl. f_equal.
  rewrite zip_fmap_fmap.
  rewrite (sort_by_key_fmap fst), <-list_fmap_compose. done.
Qed.




(** ** Rational arithmetic *)

(** Goals of linear arithmetic over [Qc], sent to [Q]. *)
Ltac qc_linear :=
  unfold Qcle, Qclt, Qcminus, Qcplus, Qcopp, Q2Qc in *; cbn [this] in *;
  rewrite ?Qred_correct in *; lra.

Lemma Qc_num_pos (z : Z) : (0 < z)%Z → 0 < num z.
Proof. intros Hz. unfold num. by rewrite <-Z2Qc_inj_0, <-Z2Qc_inj_lt. Qed.

Lemma Qc_le_eq (x y : Qc) : x = y → x ≤ y.
Proof. intros ->. apply Qcle_refl. Qed.

Lemma Qcdiv_pos (x y : Qc) : 0 < x → 0 < y → 0 < x / y.
Proof. intros Hx Hy. apply Qcmult_pos_pos; [done|]. by apply Qcinv_pos. Qed.

Lemma Qcdiv_nonneg (x y : Qc) : 0 ≤ x → 0 < y → 0 ≤ x / y.
Proof.
  intros Hx Hy. apply Qcmult_nonneg_nonneg; [done|].
  apply Qclt_le_weak. by apply Qcinv_pos.
Qed.

Lemma Qcdiv_le_anti (x p q : Qc) : 0 ≤ x → 0 < p → p ≤ q → x / q ≤ x / p.
Proof.
  intros Hx Hp Hpq.
  assert (0 < q) as Hq by (by apply Qclt_le_trans with p).
  apply Qcmult_le_mono_nonneg_l; [done|].
  apply (Qcmult_le_mono_pos_r _ _ (p * q)); [by apply Qcmult_pos_pos|].
  replace (/ q * (p * q)) with p
    by (field; intros ->; by apply Qclt_not_eq in Hq).
  replace (/ p * (p * q)) with q
    by (field; intros ->; by apply Qclt_not_eq in Hp).
  done.
Qed.

Lemma Qcdiv_le_mono (x y z : Qc) : 0 < z → x ≤ y → x / z ≤ y / z.
Proof.
  intros Hz Hxy. apply Qcmult_le_mono_nonneg_r; [|done].
  apply Qclt_le_weak. by apply Qcinv_pos.
Qed.

(** ** Durations in [midi_to_json.py] *)

Section midi_to_json.
Import MidiToJson.

Lemma ticks_to_beats_Ok ticks res :
  res ≠ 0%Z → ticks_to_beats ticks res = Ok (num ticks / num res).
Proof. intros Hres. unfold ticks_to_beats. by rewrite decide_False. Qed.

Lemma convert_note_duration pm instrument_num note nd :
  (0 < resolution pm)%Z →
  convert_note pm instrument_num note = Ok nd → 0 < nd_duration_beat nd.
Proof.
  intros Hres. unfold convert_note.
  destruct (time_to_tick pm (pm_start note)) as [start_tick|]; [|done].
  destruct (time_to_tick pm (pm_end note)) as [end_tick|]; [|done].
  cbn [mbind result_bind]. rewrite !ticks_to_beats_Ok by lia.
  cbn [mbind result_bind]. case_decide as Hd; cbn [mbind result_bind].
  - intros [= <-]. cbn [nd_duration_beat].
    apply Qcdiv_pos; by apply Qc_num_pos.
  - intros [= <-]. cbn [nd_duration_beat]. by apply Qcnot_le_lt.
Qed.

Lemma convert_instruments_duration pm instrument_num instruments notes :
  (0 < resolution pm)%Z →
  convert_instruments pm instrument_num instruments = Ok notes →
  Forall (λ n, 0 < nd_duration_beat n) notes.
Proof.
  intros Hres. revert instrument_num notes.
  induction instruments as [|instrument rest IH]; intros i notes; cbn [convert_instruments].
  - intros [= <-]. constructor.
  - destruct (traverse _ instrument) as [ns|] eqn:Hns; [|done].
    cbn [mbind result_bind].
    destruct (convert_instruments pm (S i) rest) as [others|] eqn:Hothers; [|done].
    cbn [mbind result_bind]. intros [= <-]. apply Forall_app. split.
    + eapply traverse_Forall; [|exact Hns].
      intros x y. by apply convert_note_duration.
    + by eapply IH.
Qed.

Lemma convert_instruments_length pm instrument_num instruments notes :
  convert_instruments pm instrument_num instruments = Ok notes →
  length notes = length (concat instruments).
Proof.
  revert instrument_num notes.
  induction instruments as [|instrument rest IH]; intros i notes; cbn [convert_instruments].
  - by intros [= <-].
  - destruct (traverse _ instrument) as [ns|] eqn:Hns; [|done].
    cbn [mbind result_bind].
    destruct (convert_instruments pm (S i) rest) as [others|] eqn:Hothers; [|done].
    cbn [mbind result_bind]. intros [= <-]. cbn [concat].
    rewrite !length_app, (traverse_length _ _ _ Hns). f_equal. by eapply IH.
Qed.

Lemma traverse_total {A B} (f : A → result B) (l : list A) :
  (∀ x, ∃ y, f x = Ok y) → ∃ l', traverse f l = Ok l'.
Proof.
  intros Hf. induction l as [|x l [l' IH]]; [by eexists|].
  destruct (Hf x) as [y Hy]. exists (y :: l').
  cbn [traverse]. by rewrite Hy, IH.
Qed.

Lemma convert_note_total pm instrument_num note :
  (0 < resolution pm)%Z → (∀ t, ∃ k, time_to_tick pm t = Ok k) →
  ∃ nd, convert_note pm instrument_num note = Ok nd.
Proof.
  intros Hres Hticks. unfold convert_note.
  destruct (Hticks (pm_start note)) as [start_tick ->].
  destruct (Hticks (pm_end note)) as [end_tick ->].
  cbn [mbind result_bind]. rewrite !ticks_to_beats_Ok by lia.
  cbn [mbind result_bind]. case_decide; cbn [mbind result_bind]; by eexists.
Qed.

Lemma convert_instruments_total pm instrument_num instruments :
  (0 < resolution pm)%Z → (∀ t, ∃ k, time_to_tick pm t = Ok k) →
  ∃ notes, convert_instruments pm instrument_num instruments = Ok notes.
Proof.
  intros Hres Hticks. revert instrument_num.
  induction instruments as [|instrument rest IH]; intros i; [by eexists|].
  cbn [convert_instruments].
  destruct (traverse_total (convert_note pm i) instrument) as [ns ->].
  { intros note. by apply convert_note_total. }
  destruct (IH (S i)) as [others ->]. by eexists.
Qed.

Lemma convert_note_one_tick pm instrument_num note nd :
  (0 < resolution pm)%Z →
  convert_note pm instrument_num note = Ok nd →
  ∃ start_tick end_tick,
    time_to_tick pm (pm_start note) = Ok start_tick
    ∧ time_to_tick pm (pm_end note) = Ok end_tick
    ∧ nd = one_tick_rule (resolution pm) instrument_num note start_tick end_tick.
Proof.
  intros Hres. unfold convert_note, one_tick_rule.
  destruct (time_to_tick pm (pm_start note)) as [start_tick|]; [|done].
  destruct (time_to_tick pm (pm_end note)) as [end_tick|]; [|done].
  cbn [mbind result_bind]. rewrite !ticks_to_beats_Ok by lia.
  cbn [mbind result_bind]. intros Hnd. exists start_tick, end_tick.
  split; [done|]. split; [done|]. cbn zeta.
  destruct (decide (num end_tick / num (resolution pm)
                    - num start_tick / num (resolution pm) ≤ 0));
    cbn [mbind result_bind] in Hnd; by injection Hnd as <-.
Qed.

Lemma traverse_Forall2 {A B} (f : A → result B) (l : list A) (l' : list B) :
  traverse f l = Ok l' → Forall2 (λ x y, f x = Ok y) l l'.
Proof.
  revert l'. induction l as [|x l IH]; intros l'; cbn [traverse].
  - intros [= <-]. constructor.
  - destruct (f x) as [y|] eqn:Hy; [|done]. cbn [mbind result_bind].
    destruct (traverse f l) as [ys|]; [|done]. cbn [mbind result_bind].
    intros [= <-]. constructor; [done|by apply IH].
Qed.

(** The notes are converted one by one, instrument after instrument. *)
Lemma convert_instruments_tagged pm instrument_num instruments notes :
  convert_instruments pm instrument_num instruments = Ok notes →
  Forall2 (λ x nd, convert_note pm x.1 x.2 = Ok nd)
    (tagged_notes instrument_num instruments) notes.
Proof.
  revert instrument_num notes.
  induction instruments as [|instrument rest IH]; intros i notes;
    cbn [convert_instruments tagged_notes].
  - intros [= <-]. constructor.
  - destruct (traverse _ instrument) as [ns|] eqn:Hns; [|done].
    cbn [mbind result_bind].
    destruct (convert_instruments pm (S i) rest) as [others|] eqn:Hothers; [|done].
    cbn [mbind result_bind]. intros [= <-]. apply Forall2_app; [|by apply IH].
    apply Forall2_fmap_l. by apply traverse_Forall2.
Qed.

(** C10: with a positive resolution, every note [midi_to_json] emits has a
    strictly positive [duration_beat].  A note of the file whose end beat
    is not after its start beat is converted to a note of exactly one tick,
    [1 / resolution], and any other note keeps the difference of the two
    beats.  The notes of the output are these converted notes and no
    others: the notes of the file, instrument by instrument, each converted
    by that rule, then sorted by start beat; none is dropped.  The
    conversion returns whenever [time_to_tick] does. *)
Theorem midi_notes_positive_duration (pm : PrettyMIDI) :
  (0 < resolution pm)%Z →
  (∀ instrument_num note start_tick end_tick,
     time_to_tick pm (pm_start note) = Ok start_tick →
     time_to_tick pm (pm_end note) = Ok end_tick →
     let start_beat := num start_tick / num (resolution pm) in
     let end_beat := num end_tick / num (resolution pm) in
     let duration_beat :=
       if decide (end_beat - start_beat ≤ 0) then num 1 / num (resolution pm)
       else end_beat - start_beat in
     convert_note pm instrument_num note
     = Ok {| nd_pitch := pm_pitch note; nd_start_beat := start_beat;
             nd_duration_beat := duration_beat;
             nd_velocity := pm_velocity note; nd_track := instrument_num |}
     ∧ 0 < duration_beat)
  ∧ (∀ out log, midi_to_json pm = Ok (out, log) →
       (∃ notes,
          out_notes out = sort_by_key nd_start_beat notes
          ∧ Forall2
              (λ x nd, ∃ start_tick end_tick,
                 time_to_tick pm (pm_start x.2) = Ok start_tick
                 ∧ time_to_tick pm (pm_end x.2) = Ok end_tick
                 ∧ nd = one_tick_rule (resolution pm) x.1 x.2 start_tick end_tick)
              (tagged_notes 0 (pm_instruments pm)) notes)
       ∧ length (out_notes out) = length (concat (pm_instruments pm))
       ∧ Forall (λ n, 0 < nd_duration_beat n) (out_notes out))
  ∧ ((∀ t, ∃ k, time_to_tick pm t = Ok k) →
       ∃ out log, midi_to_json pm = Ok (out, log)
         ∧ length (out_notes out) = length (concat (pm_instruments pm))).
Proof.
  intros Hres. split; [|split].
  - intros i note start_tick end_tick Hstart Hend. cbn zeta.
    assert (convert_note pm i note
            = Ok {| nd_pitch := pm_pitch note;
                    nd_start_beat := num start_tick / num (resolution pm);
                    nd_duration_beat :=
                      if decide (num end_tick / num (resolution pm)
                                 - num start_tick / num (resolution pm) ≤ 0)
                      then num 1 / num (resolution pm)
                      else num end_tick / num (resolution pm)
                           - num start_tick / num (resolution pm);
                    nd_velocity := pm_velocity note; nd_track := i |}) as Hnote.
    { unfold convert_note. rewrite Hstart, Hend. cbn [mbind result_bind].
      rewrite !ticks_to_beats_Ok by lia. cbn [mbind result_bind].
      by case_decide. }
    split; [exact Hnote|].
    by apply (convert_note_duration pm i note _ Hres Hnote).
  - intros out log. unfold midi_to_json.
    destruct (tempo_map_of pm) as [tempo_map log0].
    destruct (convert_instruments pm 0 (pm_instruments pm)) as [notes|] eqn:Hnotes; [|done].
    cbn [mbind result_bind]. intros [= <- <-]. cbn [out_notes].
    split; [|split].
    + exists notes. split; [done|].
      eapply Forall2_impl; [by apply convert_instruments_tagged|].
      intros x nd Hnd. by apply convert_note_one_tick.
    + rewrite sort_by_key_length. by eapply convert_instruments_length.
    + apply sort_by_key_Forall. by eapply convert_instruments_duration.
  - intros Hticks. unfold midi_to_json.
    destruct (tempo_map_of pm) as [tempo_map log0].
    destruct (convert_instruments_total pm 0 (pm_instruments pm) Hres Hticks)
      as [notes Hnotes].
    rewrite Hnotes. cbn [mbind result_bind]. do 2 eexists. split; [done|].
    cbn [out_notes]. rewrite sort_by_key_length.
    by eapply convert_instruments_length.
Qed.
End midi_to_json.

Lemma midi_notes_positive_duration_witness :
  (0 < MidiToJson.resolution pm_short_note)%Z
  ∧ MidiToJson.midi_to_json pm_short_note = Ok (pm_short_note_output, [])
  ∧ (∃ notes,
       MidiToJson.out_notes pm_short_note_output
       = sort_by_key MidiToJson.nd_start_beat notes
       ∧ Forall2
           (λ x nd, ∃ start_tick end_tick,
              MidiToJson.time_to_tick pm_short_note (MidiToJson.pm_start x.2)
              = Ok start_tick
              ∧ MidiToJson.time_to_tick pm_short_note (MidiToJson.pm_end x.2)
                = Ok end_tick
              ∧ nd = one_tick_rule 480 x.1 x.2 start_tick end_tick)
           (tagged_notes 0 (MidiToJson.pm_instruments pm_short_note)) notes)
  ∧ Forall (λ n, 0 < MidiToJson.nd_duration_beat n)
      (MidiToJson.out_notes pm_short_note_output)
  ∧ MidiToJson.nd_duration_beat <$> MidiToJson.out_notes pm_short_note_output
    = [num 1 / num 480; num 2].
Proof.
  assert (0 < MidiToJson.resolution pm_short_note)%Z as Hres by reflexivity.
  assert (MidiToJson.midi_to_json pm_short_note = Ok (pm_short_note_output, []))
    as Hrun by by_computation.
  destruct (proj1 (proj2 (midi_notes_positive_duration pm_short_note Hres))
              pm_short_note_output [] Hrun) as (Hnotes & _ & Hpos).
  split; [exact Hres|]. split; [exact Hrun|]. split; [exact Hnotes|].
  split; [exact Hpos|]. by_computation.
Defined.

(** ** One step of the tempo loop on a well-formed event *)

Lemma coerce_bpm_pos p : 0 < coerce_bpm p.
Proof.
  unfold coerce_bpm. case_decide; [by apply Qc_num_pos|]. by apply Qcnot_le_lt.
Qed.

Ltac tempo_step_fields e :=
  unfold tempo_step, coerce_bpm;
  rewrite (get_Some _ _ _ _ (tempo_event_beat e)),
          (get_Some _ _ _ _ (tempo_event_bpm e));
  cbn [float mbind result_bind].

(** An event after the last beat: a new point of the table. *)
Lemma tempo_step_append st i e :
  i ≠ 0%nat → last_beat st < e.1 → 0 < last_bpm st →
  let time := current_time_sec st + (e.1 - last_beat st) * num 60 / last_bpm st in
  let st' := tempo_step st i (tempo_event e) in
  beat_time_map st' = beat_time_map st ++ [(e.1, time)]
  ∧ tempo_map_dict st' = <[e.1 := coerce_bpm e.2]> (tempo_map_dict st)
  ∧ current_time_sec st' = time
  ∧ last_beat st' = e.1
  ∧ last_bpm st' = coerce_bpm e.2.
Proof.
  intros Hi Hb Hp. cbn zeta. tempo_step_fields e.
  rewrite (decide_False (P := e.1 < last_beat st))
    by (by apply Qcle_not_lt, Qclt_le_weak).
  destruct (decide (e.2 ≤ 0));
    rewrite (decide_False (P := i = 0%nat)) by done;
    rewrite (decide_True (P := 0 < last_bpm st)) by done;
    cbv beta iota zeta;
    rewrite (decide_True (P := last_beat st < e.1 ∨ i = 0%nat)) by auto;
    done.
Qed.

(** An event at the last beat, not the first of the list: no new point. *)
Lemma tempo_step_duplicate st i e :
  i ≠ 0%nat → e.1 = last_beat st →
  let st' := tempo_step st i (tempo_event e) in
  beat_time_map st' = beat_time_map st
  ∧ tempo_map_dict st' = tempo_map_dict st
  ∧ current_time_sec st' = current_time_sec st
  ∧ last_beat st' = e.1
  ∧ last_bpm st' = coerce_bpm e.2.
Proof.
  intros Hi Hb. cbn zeta. tempo_step_fields e.
  rewrite (decide_False (P := e.1 < last_beat st))
    by (rewrite Hb; intros H; by apply Qclt_not_eq in H).
  assert (¬ (last_beat st < e.1 ∨ i = 0%nat)) as Hno.
  { rewrite Hb. intros [H|H]; [by apply Qclt_not_eq in H|done]. }
  assert (current_time_sec st + (e.1 - last_beat st) * num 60 / last_bpm st
          = current_time_sec st) as Htime.
  { rewrite Hb. unfold Qcdiv. ring. }
  destruct (decide (e.2 ≤ 0));
    rewrite (decide_False (P := i = 0%nat)) by done;
    destruct (decide (0 < last_bpm st));
    cbv beta iota zeta;
    rewrite (decide_False (P := last_beat st < e.1 ∨ i = 0%nat)) by done;
    cbn [beat_time_map tempo_map_dict current_time_sec last_beat last_bpm];
    rewrite ?Htime; done.
Qed.

(** ** The segment of a beat *)

Lemma search_segment_find target_beat l pre :
  (pre ++ l) !! search_segment target_beat l (length pre)
  = find_segment target_beat l.
Proof.
  revert pre. induction l as [|p l IH]; intros pre.
  - cbn [search_segment find_segment]. apply lookup_ge_None.
    rewrite length_app. cbn [length]. lia.
  - destruct l as [|p' l'].
    + cbn [search_segment find_segment]. by apply list_lookup_middle.
    + cbn [search_segment find_segment]. case_decide.
      * by apply list_lookup_middle.
      * specialize (IH (pre ++ [p])).
        rewrite <-app_assoc, length_app, Nat.add_1_r in IH. exact IH.
Qed.

Lemma get_time_from_beat_segment target_beat btm dict seg :
  find_segment target_beat btm = Some seg →
  (get_time_from_beat target_beat btm dict).1 = segment_time dict seg target_beat.
Proof.
  intros Hseg. pose proof (search_segment_find target_beat btm []) as Hidx.
  cbn [app length] in Hidx. rewrite Hseg in Hidx.
  unfold get_time_from_beat, segment_time.
  destruct btm as [|p l]; [done|]. rewrite Hidx. destruct seg as [sb stime].
  cbn [fst snd]. by case_decide.
Qed.

Lemma get_time_from_beat_segment_log target_beat btm dict seg :
  find_segment target_beat btm = Some seg →
  0 < default (num 120) (dict !! seg.1) →
  get_time_from_beat target_beat btm dict
  = (segment_time dict seg target_beat, []).
Proof.
  intros Hseg Hpos. pose proof (search_segment_find target_beat btm []) as Hidx.
  cbn [app length] in Hidx. rewrite Hseg in Hidx.
  unfold get_time_from_beat, segment_time.
  destruct btm as [|p l]; [done|]. rewrite Hidx. destruct seg as [sb stime].
  cbn [fst snd] in *. by rewrite !decide_True.
Qed.


(** ** Two tempo events on one beat *)



(** ** Monotonicity of the beat-to-time conversion *)

Lemma segment_time_mono dict seg t1 t2 :
  t1 ≤ t2 → segment_time dict seg t1 ≤ segment_time dict seg t2.
Proof.
  intros Ht. unfold segment_time. case_decide as Hp; [|apply Qcle_refl].
  apply Qcplus_le_mono_l, Qcdiv_le_mono; [done|].
  apply Qcmult_le_mono_nonneg_r; [by apply Qclt_le_weak, Qc_num_pos|].
  by apply Qcplus_le_mono_r.
Qed.

Lemma segment_time_start dict seg target_beat :
  seg.1 ≤ target_beat → seg.2 ≤ segment_time dict seg target_beat.
Proof.
  intros Ht. unfold segment_time. case_decide as Hp.
  - rewrite <-(Qcplus_0_r seg.2) at 1.
    apply Qcplus_le_mono_l, Qcdiv_nonneg; [|done].
    apply Qcmult_nonneg_nonneg; [|by apply Qclt_le_weak, Qc_num_pos].
    qc_linear.
  - rewrite Qcplus_0_r. apply Qcle_refl.
Qed.

Lemma table_time_cons dict x y l target_beat :
  table_time dict (x :: y :: l) target_beat
  = if decide (x.1 ≤ target_beat ∧ target_beat < y.1)
    then segment_time dict x target_beat
    else table_time dict (y :: l) target_beat.
Proof. unfold table_time. cbn [find_segment]. by case_decide. Qed.

Lemma table_time_lower dict x l target_beat :
  Sorted (follows dict) (x :: l) → x.1 ≤ target_beat →
  x.2 ≤ table_time dict (x :: l) target_beat.
Proof.
  revert x. induction l as [|y l IH]; intros x Hsorted Hx.
  - by apply segment_time_start.
  - rewrite table_time_cons. case_decide as Hseg; [by apply segment_time_start|].
    apply Sorted_inv in Hsorted as [Hsorted Hhd].
    apply HdRel_inv in Hhd as [Hbeat Htime].
    assert (y.1 ≤ target_beat) as Hy.
    { apply Qcnot_lt_le. intros Hlt. by apply Hseg. }
    trans y.2; [|by apply IH].
    trans (segment_time dict x y.1); [by apply segment_time_start|done].
Qed.

Lemma table_time_mono dict x l t1 t2 :
  Sorted (follows dict) (x :: l) → x.1 ≤ t1 → t1 ≤ t2 →
  table_time dict (x :: l) t1 ≤ table_time dict (x :: l) t2.
Proof.
  revert x. induction l as [|y l IH]; intros x Hsorted Hx Ht.
  - by apply segment_time_mono.
  - pose proof Hsorted as Hxy.
    apply Sorted_inv in Hxy as [Htail Hhd].
    apply HdRel_inv in Hhd as [Hbeat Htime].
    rewrite !table_time_cons.
    destruct (decide (x.1 ≤ t1 ∧ t1 < y.1)) as [[_ H1]|H1].
    + destruct (decide (x.1 ≤ t2 ∧ t2 < y.1)) as [_|H2];
        [by apply segment_time_mono|].
      assert (y.1 ≤ t2) as Hy.
      { apply Qcnot_lt_le. intros Hlt. apply H2. split; [by trans t1|done]. }
      trans (segment_time dict x y.1);
        [by apply segment_time_mono, Qclt_le_weak|].
      trans y.2; [done|]. by apply table_time_lower.
    + assert (y.1 ≤ t1) as Hy.
      { apply Qcnot_lt_le. intros Hlt. by apply H1. }
      rewrite decide_False; [by apply IH|].
      intros [_ H2]. apply (Qcle_not_lt _ _ Hy). by apply Qcle_lt_trans with t2.
Qed.

Lemma get_time_from_beat_table target_beat x l dict :
  (get_time_from_beat target_beat (x :: l) dict).1
  = table_time dict (x :: l) target_beat.
Proof.
  unfold table_time.
  destruct (find_segment target_beat (x :: l)) as [seg|] eqn:Hseg.
  - by apply get_time_from_beat_segment.
  - exfalso. revert x Hseg. induction l as [|y l IH]; intros x; [done|].
    cbn [find_segment]. case_decide; [done|]. apply IH.
Qed.

(** ** The empty table *)

(** C8: with an empty [beat_time_map], [get_time_from_beat] does not fail:
    it prints a warning and answers [target_beat * 60 / 120], which is the
    time of [target_beat] under the single tempo event {beat 0, bpm 120}. *)
Theorem get_time_from_beat_empty_map (target_beat : Qc) (tempo_map_dict : gmap Qc Qc) :
  get_time_from_beat target_beat [] tempo_map_dict
  = (target_beat * num 60 / num 120, [WarnEmptyBeatTimeMap])
  ∧ (get_time_from_beat target_beat [] tempo_map_dict).1
    = beat_to_time [(0, num 120)] target_beat.
Proof.
  split; [reflexivity|].
  assert (beat_time_map (build_beat_time_map (tempo_event <$> [(0, num 120)]))
          = [(0, 0); (0, 0)]) as Hmap by by_computation.
  assert (JsonToMidi.tempo_map_dict
            (build_beat_time_map (tempo_event <$> [(0, num 120)]))
          = {[ 0 := num 120 ]}) as Hdict by by_computation.
  unfold beat_to_time. cbn zeta. rewrite Hmap, Hdict, get_time_from_beat_table.
  assert (segment_time {[ 0 := num 120 ]} (0, 0) target_beat
          = target_beat * num 60 / num 120) as Hseg.
  { unfold segment_time. cbn [fst snd]. rewrite lookup_singleton_eq.
    cbn [default from_option id].
    rewrite decide_True by (by apply Qc_num_pos). unfold Qcdiv. ring. }
  rewrite table_time_cons. cbn [get_time_from_beat fst].
  case_decide; [by rewrite Hseg|]. unfold table_time. cbn [find_segment from_option].
  by rewrite Hseg.
Qed.

(** *** The invariant of the tempo loop *)

Lemma segment_time_insert dict b p seg target_beat :
  seg.1 ≠ b →
  segment_time (<[b := p]> dict) seg target_beat = segment_time dict seg target_beat.
Proof. intros Hne. unfold segment_time. by rewrite lookup_insert_ne. Qed.

Lemma Sorted_follows_insert dict b p l :
  Forall (λ a, a.1 < b) l →
  Sorted (follows dict) l → Sorted (follows (<[b := p]> dict)) l.
Proof.
  intros Hl Hsorted. induction Hsorted as [|x l Hsorted IH Hhd]; [constructor|].
  apply Forall_cons in Hl as [Hx Hl]. constructor; [by apply IH|].
  destruct Hhd as [|y l [Hbeat Htime]]; constructor. split; [done|].
  rewrite segment_time_insert; [done|]. by apply Qclt_not_eq.
Qed.

Lemma table_ok_append st i e :
  i ≠ 0%nat → last_beat st < e.1 →
  table_ok st → table_ok (tempo_step st i (tempo_event e)).
Proof.
  intros Hi Hb [Hsorted Hhead Hlast Hbeats Hbpm Hpos].
  destruct (tempo_step_append st i e Hi Hb Hpos)
    as (Hmap' & Hdict' & Htime' & Hbeat' & Hbpm').
  assert (last_beat st ≠ e.1) as Hne by (by apply Qclt_not_eq).
  apply last_Some in Hlast as [l Hl].
  split; rewrite ?Hmap', ?Hdict', ?Htime', ?Hbeat', ?Hbpm'.
  - apply Sorted_snoc.
    + apply Sorted_follows_insert; [|done].
      eapply Forall_impl; [exact Hbeats|].
      intros a Ha. by apply Qcle_lt_trans with (last_beat st).
    + rewrite Hl. constructor. split; [by apply Qclt_le_weak|].
      rewrite segment_time_insert by done.
      unfold segment_time. cbn [fst snd].
      rewrite decide_True by (by apply Qclt_le_trans with (last_bpm st)).
      apply Qcplus_le_mono_l, Qcdiv_le_anti; [|done|done].
      apply Qcmult_nonneg_nonneg; [|by apply Qclt_le_weak, Qc_num_pos].
      qc_linear.
  - rewrite Hl in Hhead |- *. rewrite <-app_assoc. by destruct l.
  - apply last_snoc.
  - apply Forall_app. split.
    + eapply Forall_impl; [exact Hbeats|].
      intros a Ha. trans (last_beat st); [done|by apply Qclt_le_weak].
    + by repeat constructor.
  - rewrite lookup_insert_eq. apply Qcle_refl.
  - apply coerce_bpm_pos.
Qed.

Lemma table_ok_duplicate st i e :
  i ≠ 0%nat → e.1 = last_beat st → coerce_bpm e.2 ≤ last_bpm st →
  table_ok st → table_ok (tempo_step st i (tempo_event e)).
Proof.
  intros Hi Hb Hslower [Hsorted Hhead Hlast Hbeats Hbpm Hpos].
  destruct (tempo_step_duplicate st i e Hi Hb)
    as (Hmap' & Hdict' & Htime' & Hbeat' & Hbpm').
  split; rewrite ?Hmap', ?Hdict', ?Htime', ?Hbeat', ?Hbpm', ?Hb; try done.
  - by trans (last_bpm st).
  - apply coerce_bpm_pos.
Qed.

(** The first event of the list, at or after the last beat: a new point,
    at the current time. *)
Lemma tempo_step_first st e :
  last_beat st ≤ e.1 →
  let st' := tempo_step st 0 (tempo_event e) in
  beat_time_map st' = beat_time_map st ++ [(e.1, current_time_sec st)]
  ∧ tempo_map_dict st' = <[e.1 := coerce_bpm e.2]> (tempo_map_dict st)
  ∧ current_time_sec st' = current_time_sec st
  ∧ last_beat st' = e.1
  ∧ last_bpm st' = coerce_bpm e.2.
Proof.
  intros Hb. cbn zeta. tempo_step_fields e.
  rewrite (decide_False (P := e.1 < last_beat st)) by (by apply Qcle_not_lt).
  destruct (decide (e.2 ≤ 0));
    rewrite (decide_True (P := 0%nat = 0%nat)) by done;
    cbv beta iota zeta;
    rewrite (decide_True (P := last_beat st < e.1 ∨ 0%nat = 0%nat)) by auto;
    done.
Qed.

(** The first event of a canonical tempo map, at index 0 and beat 0. *)
Lemma table_ok_first p :
  table_ok (tempo_step build_init 0 (tempo_event (0, p))).
Proof.
  destruct (tempo_step_first build_init (0, p))
    as (Hmap & Hdict & Htime & Hbeat & Hbpm); [apply Qcle_refl|].
  cbn [fst snd build_init beat_time_map tempo_map_dict current_time_sec app] in *.
  split; rewrite ?Hmap, ?Hdict, ?Htime, ?Hbeat, ?Hbpm.
  - repeat constructor; cbn [fst snd]; [apply Qcle_refl|].
    unfold segment_time. cbn [fst snd]. case_decide.
    + apply Qc_le_eq. unfold Qcdiv. ring.
    + apply Qc_le_eq. ring.
  - done.
  - done.
  - repeat constructor; apply Qcle_refl.
  - rewrite lookup_insert_eq. apply Qcle_refl.
  - apply coerce_bpm_pos.
Qed.

Lemma coerce_bpm_id p : 0 < p → coerce_bpm p = p.
Proof. intros Hp. unfold coerce_bpm. rewrite decide_False; [done|]. by apply Qclt_not_le. Qed.

Lemma Sorted_no_faster_coerce e tm :
  Sorted no_faster (e :: tm) → Sorted no_faster ((e.1, coerce_bpm e.2) :: tm).
Proof.
  intros [Hsorted Hhd]%Sorted_inv. constructor; [done|].
  destruct Hhd as [|e' tm' Hrel]; constructor.
  unfold no_faster in *. cbn [fst snd].
  by rewrite (coerce_bpm_id (coerce_bpm e.2)) by apply coerce_bpm_pos.
Qed.

Lemma table_ok_loop tm st i :
  i ≠ 0%nat → Sorted no_faster ((last_beat st, last_bpm st) :: tm) →
  table_ok st → table_ok (tempo_loop st i (tempo_event <$> tm)).
Proof.
  revert st i. induction tm as [|e tm IH]; intros st i Hi Hsorted Hok; [done|].
  rewrite !fmap_cons in *. cbn [tempo_loop].
  apply Sorted_inv in Hsorted as [Hsorted Hhd]. apply HdRel_inv in Hhd.
  pose proof (table_bpm_pos st Hok) as Hpos.
  destruct Hhd as [Hlt|[Heq Hslower]]; cbn [fst snd] in *.
  - apply IH; [done| |by apply table_ok_append].
    destruct (tempo_step_append st i e Hi Hlt Hpos) as (_ & _ & _ & -> & ->).
    by apply Sorted_no_faster_coerce.
  - rewrite (coerce_bpm_id _ Hpos) in Hslower.
    apply IH; [done| |by apply table_ok_duplicate].
    destruct (tempo_step_duplicate st i e Hi (eq_sym Heq)) as (_ & _ & _ & -> & ->).
    by apply Sorted_no_faster_coerce.
Qed.



(** Strictly ascending beats are one case of the hypothesis. *)
Lemma Sorted_no_faster (tm : list (Qc * Qc)) :
  Sorted (<) tm.*1 → Sorted no_faster tm.
Proof.
  induction tm as [|e tm IH]; [constructor|].
  rewrite fmap_cons. intros [Hsorted Hhd]%Sorted_inv. constructor; [by apply IH|].
  destruct tm as [|e' tm]; constructor.
  rewrite fmap_cons in Hhd. apply HdRel_inv in Hhd. by left.
Qed.


(** ** Instruments and the default track *)

Lemma note_tracks_spec notes_data tracks :
  note_tracks notes_data = Ok tracks →
  ∀ t, t ∈ tracks ↔ ∃ note, note ∈ notes_data ∧ explicit_track note t.
Proof.
  revert tracks. induction notes_data as [|note rest IH]; intros tracks; cbn [note_tracks].
  - intros [= <-] t. split; [set_solver|]. intros (note & Hin & _). by apply elem_of_nil in Hin.
  - destruct (as_dict note ≫= (.!! "track")) as [v|] eqn:Hv.
    + destruct (int v) as [t0|] eqn:Ht0; [|done]. cbn [mbind result_bind].
      destruct (note_tracks rest) as [s|]; [|done]. cbn [mbind result_bind].
      intros [= <-] t. rewrite elem_of_union, elem_of_singleton, (IH s eq_refl t).
      split.
      * intros [->|(n & Hn & Hexp)].
        -- exists note. split; [left|]. by exists v.
        -- exists n. split; [by right|done].
      * intros (n & Hn & Hexp). apply elem_of_cons in Hn as [->|Hn].
        -- left. destruct Hexp as (v' & Hv' & Ht). congruence.
        -- right. by exists n.
    + intros Hrest t. rewrite (IH tracks Hrest t). split.
      * intros (n & Hn & Hexp). exists n. split; [by right|done].
      * intros (n & Hn & Hexp). apply elem_of_cons in Hn as [->|Hn].
        -- destruct Hexp as (v' & Hv' & _). congruence.
        -- by exists n.
Qed.

Lemma create_step_other l acc t :
  t ∉ l ∨ (t < 0)%Z → (foldl create_step acc l).1 !! t = acc.1 !! t.
Proof.
  revert acc. induction l as [|x l IH]; intros acc Ht; [done|].
  cbn [foldl]. rewrite IH.
  - unfold create_step. case_decide; [done|]. cbn [fst].
    apply lookup_insert_ne. intros ->. destruct Ht as [Ht|Ht]; [|lia].
    apply Ht. left.
  - destruct Ht as [Ht|Ht]; [left|by right]. intros Hin. apply Ht. by right.
Qed.

Lemma create_step_created l acc t :
  t ∈ l → (0 ≤ t)%Z → (foldl create_step acc l).1 !! t = Some [].
Proof.
  revert acc. induction l as [|x l IH]; intros acc Hin Ht.
  - by apply elem_of_nil in Hin.
  - cbn [foldl]. destruct (decide (t ∈ l)) as [Hl|Hl]; [by apply IH|].
    apply elem_of_cons in Hin as [->|Hin]; [|done].
    rewrite create_step_other by (by left).
    unfold create_step. rewrite decide_False by lia. cbn [fst].
    apply lookup_insert_eq.
Qed.

Lemma create_instruments_zero tracks :
  is_Some ((create_instruments tracks).1 !! 0%Z)
  ↔ 0%Z ∈ tracks ∨ ∀ t, t ∈ tracks → (t < 0)%Z.
Proof.
  unfold create_instruments.
  set (l := merge_sort Z.le (elements tracks)).
  assert (∀ t, t ∈ l ↔ t ∈ tracks) as Hl.
  { intros t. unfold l. by rewrite merge_sort_Permutation, elem_of_elements. }
  pose proof (create_step_other l (∅, []) ) as Hother.
  pose proof (create_step_created l (∅, [])) as Hcreated.
  destruct (foldl create_step (∅, []) l) as [ins log]. cbn [fst] in *.
  case_decide as Hempty; cbn [fst].
  - split; [intros _|intros _; by rewrite lookup_singleton_eq].
    right. intros t Ht. destruct (decide (t < 0)%Z) as [|Hneg]; [done|].
    exfalso.
    assert (ins !! t = Some []) as Hsome by (apply Hcreated; [by apply Hl|lia]).
    by rewrite Hempty, lookup_empty in Hsome.
  - split.
    + intros Hsome. left. apply Hl. destruct (decide (0%Z ∈ l)) as [|Hnot]; [done|].
      rewrite Hother, lookup_empty in Hsome by (by left). by destruct Hsome.
    + intros [Hzero|Hneg].
      * rewrite Hcreated; [done|by apply Hl|done].
      * exfalso. apply Hempty. apply map_eq. intros t. rewrite lookup_empty.
        destruct (decide (t ∈ l)) as [Hin|Hnot].
        -- rewrite Hother, lookup_empty; [done|]. right. by apply Hneg, Hl.
        -- by rewrite Hother, lookup_empty by (by left).
Qed.

(** ** The note loop *)

Lemma extract_note_Ok d f :
  extract_note d = Ok f →
  getitem d "pitch" ≫= int = Ok (nf_pitch f)
  ∧ getitem d "start_beat" ≫= float = Ok (nf_start_beat f)
  ∧ getitem d "duration_beat" ≫= float = Ok (nf_duration_beat f)
  ∧ int (get d "velocity" (JNum (num 100))) = Ok (nf_velocity f)
  ∧ int (get d "track" (JNum 0)) = Ok (nf_track f).
Proof.
  unfold extract_note.
  destruct (getitem d "pitch" ≫= int) as [pitch|]; [|done].
  destruct (getitem d "start_beat" ≫= float) as [start_beat|]; [|done].
  destruct (getitem d "duration_beat" ≫= float) as [duration_beat|]; [|done].
  destruct (int (get d "velocity" _)) as [velocity|]; [|done].
  destruct (int (get d "track" _)) as [track|]; [|done].
  cbn [mbind result_bind]. intros Hf. injection Hf as <-. done.
Qed.

Lemma convert_note_Some ins btm dict f track n w :
  convert_note ins btm dict f = Ok (Some (track, n), w) →
  (0 ≤ nf_pitch f ≤ 127)%Z ∧ (0 ≤ nf_velocity f ≤ 127)%Z
  ∧ 0 ≤ nf_start_beat f ∧ 0 < nf_duration_beat f
  ∧ is_Some (ins !! nf_track f) ∧ track = nf_track f.
Proof.
  unfold convert_note.
  destruct (bool_decide (0 ≤ nf_pitch f ≤ 127)%Z) eqn:Hpitch; [|done].
  destruct (bool_decide (0 ≤ nf_velocity f ≤ 127)%Z) eqn:Hvelocity; [|done].
  cbn [negb].
  destruct (decide (nf_start_beat f < 0)) as [|Hstart]; [done|].
  destruct (decide (nf_duration_beat f ≤ 0)) as [|Hduration]; [done|].
  destruct (decide (ins !! nf_track f = None)) as [|Htrack]; [done|].
  destruct (get_time_from_beat (nf_start_beat f) btm dict) as [start_time w1].
  destruct (get_time_from_beat _ btm dict) as [end_time0 w2].
  apply bool_decide_eq_true_1 in Hpitch, Hvelocity.
  apply Qcnot_lt_le in Hstart. apply Qcnot_le_lt in Hduration.
  apply not_eq_None_Some in Htrack.
  case_decide; intros [= <- <- <-]; done.
Qed.

(** A step either skips the note, with a message, or adds a note that
    passed every check. *)
Lemma note_step_cases btm dict st i note :
  (∃ w, w ≠ [] ∧ note_step btm dict st i note = skip_note st w)
  ∨ (∃ d f n w, note = JObj d ∧ extract_note d = Ok f
       ∧ convert_note (instruments st) btm dict f = Ok (Some (nf_track f, n), w)
       ∧ note_step btm dict st i note = add_note st (nf_track f) n w).
Proof.
  destruct note as [| | | | |d]; try (left; eexists; split; [|done]; done).
  cbn [note_step]. unfold note_body.
  destruct (extract_note d) as [f|e] eqn:Hf; cbn [mbind result_bind].
  - destruct (convert_note (instruments st) btm dict f) as [[[[track n]|] w]|e] eqn:Hn.
    + right. exists d, f, n, w.
      destruct (convert_note_Some _ _ _ _ _ _ _ Hn) as (_ & _ & _ & _ & _ & ->).
      done.
    + left. exists w. split; [|done].
      unfold convert_note in Hn. repeat case_match; try done; by simplify_eq.
    + left. destruct e; eexists; (split; [|done]); done.
  - left. destruct e; eexists; (split; [|done]); done.
Qed.





(** ** Rejected notes *)




(** ** The clamp of the end time *)

(** C6: a note that passes the checks and whose end time, as converted, is
    not after its start time is kept: the step adds it to its instrument
    with the end time [start_time + 0.001], counts it as converted, and
    prints the warning. *)
Theorem nonpositive_duration_clamped (btm : list (Qc * Qc)) (dict : gmap Qc Qc)
    (st : notes_state) (i : nat) (d : gmap string json) (f : note_fields) :
  extract_note d = Ok f →
  (0 ≤ nf_pitch f ≤ 127)%Z →
  (0 ≤ nf_velocity f ≤ 127)%Z →
  0 ≤ nf_start_beat f →
  0 < nf_duration_beat f →
  is_Some (instruments st !! nf_track f) →
  let start := get_time_from_beat (nf_start_beat f) btm dict in
  let stop := get_time_from_beat (nf_start_beat f + nf_duration_beat f) btm dict in
  stop.1 ≤ start.1 →
  let n := {| velocity := nf_velocity f; pitch := nf_pitch f;
              start := start.1; end_ := start.1 + num 1 / num 1000 |} in
  let st' := note_step btm dict st i (JObj d) in
  st' = add_note st (nf_track f) n
          (start.2 ++ stop.2 ++ [WarnClampedDuration (num 1 / num 1000)])
  ∧ instruments st' !! nf_track f
    = (λ notes, notes ++ [n]) <$> instruments st !! nf_track f
  ∧ note_count st' = S (note_count st)
  ∧ skipped_count st' = skipped_count st
  ∧ WarnClampedDuration (num 1 / num 1000) ∈ notes_log st'.
Proof.
  intros Hf Hpitch Hvelocity Hstart Hduration Htrack start stop Htimes n st'.
  assert (st' = add_note st (nf_track f) n
                  (start.2 ++ stop.2 ++ [WarnClampedDuration (num 1 / num 1000)]))
    as Hstep.
  { unfold st', note_step, note_body. rewrite Hf. cbn [mbind result_bind].
    unfold convert_note.
    rewrite !bool_decide_eq_true_2 by done. cbn [negb].
    rewrite (decide_False (P := nf_start_beat f < 0)) by (by apply Qcle_not_lt).
    rewrite (decide_False (P := nf_duration_beat f ≤ 0)) by (by apply Qclt_not_le).
    rewrite (decide_False (P := instruments st !! nf_track f = None))
      by (by apply not_eq_None_Some).
    fold start stop. destruct start as [start_time w1], stop as [end_time0 w2].
    cbn [fst snd] in *. by rewrite decide_True. }
  split; [exact Hstep|]. rewrite Hstep. cbn [add_note instruments note_count
    skipped_count notes_log].
  repeat split.
  - by rewrite lookup_alter_eq.
  - rewrite !elem_of_app, list_elem_of_singleton. tauto.
Qed.

Lemma nonpositive_duration_clamped_witness :
  let bst := build_beat_time_map (tempo_event <$> faster_duplicate) in
  let st := notes_init {[ 0%Z := [] ]} in
  let st' := note_step (beat_time_map bst) (tempo_map_dict bst) st 0 (JObj clamped_note) in
  instruments st' !! 0%Z
  = Some [ {| velocity := 100; pitch := 60; start := num 97 / num 40;
              end_ := num 97 / num 40 + num 1 / num 1000 |} ]
  ∧ note_count st' = 1%nat
  ∧ skipped_count st' = 0%nat
  ∧ WarnClampedDuration (num 1 / num 1000) ∈ notes_log st'.
Proof.
  cbn zeta.
  pose proof (nonpositive_duration_clamped
                (beat_time_map (build_beat_time_map (tempo_event <$> faster_duplicate)))
                (tempo_map_dict (build_beat_time_map (tempo_event <$> faster_duplicate)))
                (notes_init {[ 0%Z := [] ]}) 0 clamped_note clamped_fields) as H.
  cbn zeta in H.
  destruct H as (_ & Hins & Hcount & Hskipped & Hlog);
    [by vm_compute|cbn; lia|cbn; lia
    |by_computation|by_computation|by_computation|by_computation|].
  split; [|split; [|split]]; [|done..].
  etrans; [exact Hins|]. by_computation.
Defined.

(** ** The default track *)

(** C9, as stated, fails in its account of when the instrument of track 0
    exists: with one note, on track -1, no instrument is created for the
    note, so the default instrument of track 0 is, although a note carries
    a ['track'] key and no note carries the track 0. *)
Lemma track_zero_with_negative_track :
  note_tracks [negative_track_note] = Ok {[ (-1)%Z ]}
  ∧ is_Some ((create_instruments {[ (-1)%Z ]}).1 !! 0%Z)
  ∧ ¬ (∃ note, note ∈ [negative_track_note] ∧ explicit_track note 0)
  ∧ ¬ (∀ note, note ∈ [negative_track_note] →
         as_dict note ≫= (.!! "track") = None).
Proof.
  split; [by_computation|]. split; [by_computation|]. split.
  - intros (note & Hin & v & Hv & Hint).
    apply list_elem_of_singleton in Hin as ->.
    vm_compute in Hv. injection Hv as <-. vm_compute in Hint. discriminate.
  - intros Hnone.
    specialize (Hnone negative_track_note (list_elem_of_here _ _)).
    vm_compute in Hnone. discriminate.
Qed.

(** C9, amended: a note without a ['track'] key is on track 0.  The
    instrument of track 0 exists exactly when some note carries a ['track']
    key that reads as 0, or no note carries a ['track'] key that reads as a
    number from 0 on (no key at all, or negative tracks only).  Without that
    instrument every note without a ['track'] key is skipped and counted;
    so it is for the second note of the document that holds a note on track
    1 and a note without track. *)
Theorem track_zero_instrument (notes_data : list json) (tracks : gset Z) :
  note_tracks notes_data = Ok tracks →
  (is_Some ((create_instruments tracks).1 !! 0%Z)
   ↔ (∃ note, note ∈ notes_data ∧ explicit_track note 0)
     ∨ (∀ note t, note ∈ notes_data → explicit_track note t → (t < 0)%Z))
  ∧ (∀ d f, d !! "track" = None → extract_note d = Ok f → nf_track f = 0%Z)
  ∧ (∀ btm dict st i d,
       d !! "track" = None → instruments st !! 0%Z = None →
       ∃ w, w ≠ [] ∧ note_step btm dict st i (JObj d) = skip_note st w)
  ∧ json_to_midi two_notes_doc
    = Written
        [(1%Z, [ {| velocity := 100; pitch := 60; start := 0;
                    end_ := num 1 / num 2 |} ])]
        1 1
        [InfoCreatedInstrument 1; WarnUnknownTrack 0; InfoAddedInstrument 1 1;
         InfoProcessed 1 1].
Proof.
  intros Htracks.
  assert (∀ d f, d !! "track" = None → extract_note d = Ok f → nf_track f = 0%Z)
    as Hdefault.
  { intros d f Hnone Hf.
    destruct (extract_note_Ok _ _ Hf) as (_ & _ & _ & _ & Htrack).
    rewrite (get_None _ _ _ Hnone) in Htrack. by injection Htrack as <-. }
  split; [|split; [exact Hdefault|split]].
  - rewrite create_instruments_zero, (note_tracks_spec _ _ Htracks).
    split; (intros [Hzero|Hneg]; [by left|right]).
    + intros note t Hin Hexp. apply Hneg, (note_tracks_spec _ _ Htracks). eauto.
    + intros t (note & Hin & Hexp)%(note_tracks_spec _ _ Htracks). eauto.
  - intros btm dict st i d Hnone Hzero.
    destruct (note_step_cases btm dict st i (JObj d))
      as [Hskip|(d' & f & n & w & [= <-] & Hf & Hn & _)]; [done|].
    destruct (convert_note_Some _ _ _ _ _ _ _ Hn) as (_ & _ & _ & _ & Hsome & _).
    rewrite (Hdefault _ _ Hnone Hf), Hzero in Hsome. by destruct Hsome.
  - by_computation.
Qed.

Lemma track_zero_instrument_witness :
  note_tracks [track_one_note; no_track_note] = Ok {[ 1%Z ]}
  ∧ ¬ is_Some ((create_instruments {[ 1%Z ]}).1 !! 0%Z)
  ∧ ¬ ((∃ note, note ∈ [track_one_note; no_track_note] ∧ explicit_track note 0)
       ∨ (∀ note t, note ∈ [track_one_note; no_track_note] →
            explicit_track note t → (t < 0)%Z)).
Proof.
  assert (note_tracks [track_one_note; no_track_note] = Ok {[ 1%Z ]}) as Htracks
    by by_computation.
  assert (¬ is_Some ((create_instruments {[ 1%Z ]}).1 !! 0%Z)) as Hnone
    by by_computation.
  split; [exact Htracks|]. split; [exact Hnone|].
  intros Hcases. apply Hnone.
  by apply (proj1 (track_zero_instrument _ _ Htracks)).
Defined.

(** * More of the code *)

(** ** What the tempo loop keeps *)

Lemma tempo_step_effect_step st i event :
  0 < last_bpm st → tempo_step_effect st i (tempo_step st i event).
Proof.
  intros Hpos. unfold tempo_step.
  destruct (float (get event "beat" (JNum 0))) as [b|e]; cbn [mbind result_bind];
    [|by apply step_skipped].
  destruct (float (get event "bpm" (JNum (num 120)))) as [p|e]; cbn [mbind result_bind];
    [|by apply step_skipped].
  destruct (decide (b < last_beat st)) as [Hlt|Hge]; [by apply step_skipped|].
  apply Qcnot_lt_le in Hge. fold (coerce_bpm p).
  assert (∀ w, (if decide (p ≤ 0) then (num 120, w) else (p, @nil diag))
               = (coerce_bpm p, if decide (p ≤ 0) then w else [])) as Hc.
  { intros w. unfold coerce_bpm. by case_decide. }
  rewrite Hc. cbv beta iota zeta.
  destruct (decide (i = 0%nat)) as [->|Hi].
  - cbv beta iota zeta. rewrite decide_True by auto. cbv beta iota zeta.
    apply (step_anchor _ _ _ b p); cbn; try done.
    destruct (decide (last_beat st = b)); [by right|left].
    apply Qcle_lt_or_eq in Hge as [|]; done.
  - rewrite decide_True by done. cbv beta iota zeta.
    destruct (decide (last_beat st < b ∨ i = 0%nat)) as [[Hlt|]|Hno]; [|done|].
    + apply (step_anchor _ _ _ b p); cbn; try done; [by left|].
      by rewrite decide_False.
    + assert (last_beat st = b) as <-.
      { apply Qcle_lt_or_eq in Hge as [|]; [|done]. exfalso. apply Hno. by left. }
      apply (step_duplicate _ _ _ p); cbn; try done.
      unfold Qcdiv. ring.
Qed.

Lemma table_wf_init : table_wf build_init.
Proof.
  split; cbn [build_init beat_time_map tempo_map_dict current_time_sec
                last_beat last_bpm]; try done.
  all: try (repeat constructor; cbn [fst snd]; first [apply Qcle_refl|by left]).
Qed.

Lemma table_wf_last_bounds st :
  table_wf st → 0 ≤ last_beat st ∧ 0 ≤ current_time_sec st.
Proof.
  intros Hwf. pose proof (wf_last st Hwf) as Hlast.
  apply last_Some in Hlast as [l Hl].
  pose proof (wf_bounds st Hwf) as Hb. rewrite Hl in Hb.
  apply Forall_app in Hb as [_ Hb]. apply Forall_cons in Hb as [Hb _].
  cbn in Hb. tauto.
Qed.

Lemma table_wf_step st i event :
  table_wf st → table_wf (tempo_step st i event).
Proof.
  intros Hwf. destruct (table_wf_last_bounds st Hwf) as [Hlb Hcur].
  destruct Hwf as [Hhead Hlast Hsorted Hbounds Hzero Hkeys Hdict Hbpm].
  destruct (tempo_step_effect_step st i event Hbpm)
    as [Hm Hd Ht Hb Hp|b p Hcase Hm Hd Ht Hb Hp|p Hi Hm Hd Ht Hb Hp].
  - split; rewrite ?Hm, ?Hd, ?Ht, ?Hb, ?Hp; done.
  - assert (last_beat st ≤ b) as Hle.
    { destruct Hcase as [H|[-> _]]; [by apply Qclt_le_weak|apply Qcle_refl]. }
    assert (current_time_sec st ≤ current_time_sec (tempo_step st i event)) as Hte.
    { rewrite Ht. case_decide; [apply Qcle_refl|].
      rewrite <-(Qcplus_0_r (current_time_sec st)) at 1.
      apply Qcplus_le_mono_l, Qcdiv_nonneg; [|done].
      apply Qcmult_nonneg_nonneg; [|by apply Qclt_le_weak, Qc_num_pos].
      qc_linear. }
    set (t' := current_time_sec (tempo_step st i event)) in *.
    pose proof Hlast as Hlast'. apply last_Some in Hlast' as [l Hl].
    split; rewrite ?Hm, ?Hd, ?Hb, ?Hp.
    + rewrite Hl in Hhead |- *. rewrite <-app_assoc. by destruct l.
    + apply last_snoc.
    + apply Sorted_snoc; [done|]. rewrite Hl. by constructor.
    + apply Forall_app. split.
      * eapply Forall_impl; [exact Hbounds|]. cbn. intros a (? & ? & ? & ?).
        repeat split; try done; [by trans (last_beat st)|by trans (current_time_sec st)].
      * repeat constructor; cbn; try apply Qcle_refl; [by trans (last_beat st)|by trans (current_time_sec st)].
    + apply Forall_app. split; [done|]. repeat constructor. cbn. intros ->.
      destruct Hcase as [Hlt|[Heq ->]].
      * exfalso. by apply (Qcle_not_lt _ _ Hlb).
      * rewrite Ht, decide_True by done.
        rewrite Hl in Hzero. apply Forall_app in Hzero as [_ Hzero].
        apply Forall_cons in Hzero as [Hzero _]. by apply Hzero.
    + apply Forall_app. split.
      * eapply Forall_impl; [exact Hkeys|]. cbn. intros a [?|?]; [by left|right].
        apply lookup_insert_is_Some. destruct (decide (b = a.1)); [by left|by right].
      * constructor; [|constructor]. right. cbn [fst]. by rewrite lookup_insert_eq.
    + apply map_Forall_insert_2; [apply coerce_bpm_pos|done].
    + apply coerce_bpm_pos.
  - split; rewrite ?Hm, ?Hd, ?Ht, ?Hb, ?Hp; try done. apply coerce_bpm_pos.
Qed.

Lemma table_wf_loop events st i :
  table_wf st → table_wf (tempo_loop st i events).
Proof.
  revert st i. induction events as [|event events IH]; intros st i Hwf; [done|].
  cbn [tempo_loop]. by apply IH, table_wf_step.
Qed.

Lemma table_wf_build events : table_wf (build_beat_time_map events).
Proof. apply table_wf_loop, table_wf_init. Qed.

Lemma find_segment_elem target_beat l seg :
  find_segment target_beat l = Some seg → seg ∈ l.
Proof.
  induction l as [|x l IH]; [done|]. cbn [find_segment].
  destruct l as [|y l]; [intros [= ->]; left|].
  case_decide; [intros [= ->]; left|]. intros Hseg. right. by apply IH.
Qed.

Lemma find_segment_is_Some target_beat x l :
  is_Some (find_segment target_beat (x :: l)).
Proof.
  revert x. induction l as [|y l IH]; intros x; [by eexists|].
  cbn [find_segment]. case_decide; [by eexists|]. apply IH.
Qed.

Lemma find_segment_below target_beat x l seg :
  Sorted anchor_le (x :: l) → x.1 ≤ target_beat →
  find_segment target_beat (x :: l) = Some seg → seg.1 ≤ target_beat.
Proof.
  revert x. induction l as [|y l IH]; intros x Hsorted Hx; cbn [find_segment].
  - by intros [= <-].
  - case_decide as Hseg; [by intros [= <-]|]. apply IH.
    + by apply Sorted_inv in Hsorted as [? _].
    + apply Qcnot_lt_le. intros Hlt. by apply Hseg.
Qed.

Lemma default_bpm_pos (dict : gmap Qc Qc) b :
  map_Forall (λ _ p, 0 < p) dict → 0 < default (num 120) (dict !! b).
Proof.
  intros Hdict. destruct (dict !! b) as [p|] eqn:Hp; cbn.
  - by apply (Hdict b).
  - by apply Qc_num_pos.
Qed.

(** On a table of the loop a conversion is the formula of its segment, and
    prints nothing. *)
Lemma get_time_from_beat_wf st target_beat :
  table_wf st →
  ∃ seg, seg ∈ beat_time_map st
    ∧ find_segment target_beat (beat_time_map st) = Some seg
    ∧ get_time_from_beat target_beat (beat_time_map st) (tempo_map_dict st)
      = (seg.2 + (target_beat - seg.1) * num 60
                 / default (num 120) (tempo_map_dict st !! seg.1), []).
Proof.
  intros Hwf. pose proof (wf_head st Hwf) as Hhead.
  destruct (beat_time_map st) as [|x l] eqn:Hmap; [done|].
  destruct (find_segment_is_Some target_beat x l) as [seg Hseg].
  exists seg. split; [by eapply find_segment_elem|]. split; [done|].
  pose proof (default_bpm_pos _ seg.1 (wf_dict st Hwf)) as Hpos.
  rewrite (get_time_from_beat_segment_log _ _ _ seg Hseg Hpos).
  unfold segment_time. by rewrite decide_True.
Qed.

Lemma dict_keys_anchored_step st i event :
  0 < last_bpm st →
  map_Forall (λ b _, b ∈ (beat_time_map st).*1) (tempo_map_dict st) →
  map_Forall (λ b _, b ∈ (beat_time_map (tempo_step st i event)).*1)
    (tempo_map_dict (tempo_step st i event)).
Proof.
  intros Hbpm Hkeys.
  destruct (tempo_step_effect_step st i event Hbpm)
    as [Hm Hd _ _ _|b p _ Hm Hd _ _ _|p _ Hm Hd _ _ _]; rewrite Hm, Hd; try done.
  rewrite fmap_app. apply map_Forall_insert_2.
  - apply elem_of_app. right. cbn. left.
  - eapply map_Forall_impl; [exact Hkeys|]. cbn. intros k _ Hk.
    apply elem_of_app. by left.
Qed.

Lemma dict_keys_anchored_loop events st i :
  table_wf st →
  map_Forall (λ b _, b ∈ (beat_time_map st).*1) (tempo_map_dict st) →
  map_Forall (λ b _, b ∈ (beat_time_map (tempo_loop st i events)).*1)
    (tempo_map_dict (tempo_loop st i events)).
Proof.
  revert st i. induction events as [|event events IH]; intros st i Hwf Hkeys; [done|].
  cbn [tempo_loop]. apply IH; [by apply table_wf_step|].
  apply dict_keys_anchored_step; [by apply (wf_bpm st)|done].
Qed.

(** The table the loop builds, whatever the events. *)
Lemma built_table_shape_aux (events : list (gmap string json)) :
  let st := build_beat_time_map events in
  head (beat_time_map st) = Some (0, 0)
  ∧ Sorted anchor_le (beat_time_map st)
  ∧ (∀ b p, tempo_map_dict st !! b = Some p → 0 < p ∧ ∃ t, (b, t) ∈ beat_time_map st)
  ∧ (∀ b t, (b, t) ∈ beat_time_map st → b = 0 ∨ is_Some (tempo_map_dict st !! b)).
Proof.
  cbn zeta. pose proof (table_wf_build events) as Hwf.
  split; [apply (wf_head _ Hwf)|]. split; [apply (wf_sorted _ Hwf)|]. split.
  - intros b p Hp. split; [by apply (wf_dict _ Hwf b)|].
    assert (b ∈ (beat_time_map (build_beat_time_map events)).*1) as Hb.
    { eapply (dict_keys_anchored_loop events build_init 0 table_wf_init); [|exact Hp].
      apply map_Forall_empty. }
    apply list_elem_of_fmap in Hb as ([b' t] & -> & Hin). by exists t.
  - intros b t Hin. pose proof (wf_keys _ Hwf) as Hkeys.
    rewrite Forall_forall in Hkeys. apply (Hkeys (b, t) Hin).
Qed.

(** X1: the table the loop builds from tempo events whose beat and bpm are
    numbers in the range of the doubles, in any order and with any sign: it
    starts at beat 0 and 0 seconds; beats and times do not decrease along
    it; every tempo of the dictionary is positive and belongs to a beat of
    the table; and every point of the table after beat 0 has its tempo in
    the dictionary. *)
Theorem built_table_shape (tm : list (Qc * Qc)) :
  finite_events tm →
  let st := build_beat_time_map (tempo_event <$> tm) in
  head (beat_time_map st) = Some (0, 0)
  ∧ Sorted anchor_le (beat_time_map st)
  ∧ (∀ b p, tempo_map_dict st !! b = Some p → 0 < p ∧ ∃ t, (b, t) ∈ beat_time_map st)
  ∧ (∀ b t, (b, t) ∈ beat_time_map st → b = 0 ∨ is_Some (tempo_map_dict st !! b)).
Proof. intros _. apply built_table_shape_aux. Qed.

Lemma built_table_shape_witness :
  let st := build_beat_time_map (tempo_event <$> faster_duplicate) in
  head (beat_time_map st) = Some (0, 0)
  ∧ Sorted anchor_le (beat_time_map st)
  ∧ (∀ b p, tempo_map_dict st !! b = Some p → 0 < p ∧ ∃ t, (b, t) ∈ beat_time_map st)
  ∧ (∀ b t, (b, t) ∈ beat_time_map st → b = 0 ∨ is_Some (tempo_map_dict st !! b)).
Proof. apply (built_table_shape faster_duplicate). by_computation. Defined.

(** X2: under tempo events whose beat and bpm are numbers in the range of
    the doubles, beat 0 is at 0 seconds and its conversion prints nothing. *)
Theorem beat_zero_at_time_zero (tm : list (Qc * Qc)) :
  finite_events tm →
  let st := build_beat_time_map (tempo_event <$> tm) in
  get_time_from_beat 0 (beat_time_map st) (tempo_map_dict st) = (0, []).
Proof.
  intros _. cbn zeta. pose proof (table_wf_build (tempo_event <$> tm)) as Hwf.
  destruct (get_time_from_beat_wf _ 0 Hwf) as (seg & Hin & Hseg & ->).
  pose proof (wf_head _ Hwf) as Hhead. pose proof (wf_sorted _ Hwf) as Hsorted.
  pose proof (wf_bounds _ Hwf) as Hbounds. pose proof (wf_zero _ Hwf) as Hzero.
  rewrite Forall_forall in Hbounds, Hzero.
  destruct (beat_time_map _) as [|x l]; [done|]. injection Hhead as ->.
  assert (seg.1 = 0) as Hbeat.
  { apply Qcle_antisym; [|by apply (Hbounds seg Hin)].
    eapply (find_segment_below 0 (0, 0) l); [done|apply Qcle_refl|done]. }
  rewrite Hbeat, (Hzero seg Hin Hbeat). f_equal; try (unfold Qcdiv; ring).
Qed.

Lemma beat_zero_at_time_zero_witness :
  let st := build_beat_time_map (tempo_event <$> faster_last) in
  get_time_from_beat 0 (beat_time_map st) (tempo_map_dict st) = (0, []).
Proof. apply (beat_zero_at_time_zero faster_last). by_computation. Defined.

(** X3: on the table and the dictionary the loop built from tempo events
    whose beat and bpm are numbers in the range of the doubles,
    [get_time_from_beat] never prints a warning: the table is not empty and
    the tempo of the segment is positive, for every beat. *)
Theorem conversion_silent (tm : list (Qc * Qc)) (target_beat : Qc) :
  finite_events tm →
  let st := build_beat_time_map (tempo_event <$> tm) in
  (get_time_from_beat target_beat (beat_time_map st) (tempo_map_dict st)).2 = [].
Proof.
  intros _. cbn zeta. pose proof (table_wf_build (tempo_event <$> tm)) as Hwf.
  by destruct (get_time_from_beat_wf _ target_beat Hwf) as (seg & Hin & Hseg & ->).
Qed.

Lemma conversion_silent_witness :
  let st := build_beat_time_map (tempo_event <$> faster_duplicate) in
  (get_time_from_beat (- num 1) (beat_time_map st) (tempo_map_dict st)).2 = [].
Proof. apply (conversion_silent faster_duplicate (- num 1)). by_computation. Defined.

Lemma get_time_nonneg_wf st target_beat :
  table_wf st → 0 ≤ target_beat →
  0 ≤ (get_time_from_beat target_beat (beat_time_map st) (tempo_map_dict st)).1.
Proof.
  intros Hwf Htarget.
  destruct (get_time_from_beat_wf _ target_beat Hwf) as (seg & Hin & Hseg & ->).
  pose proof (wf_head _ Hwf) as Hhead. pose proof (wf_sorted _ Hwf) as Hsorted.
  pose proof (wf_bounds _ Hwf) as Hbounds. rewrite Forall_forall in Hbounds.
  pose proof (default_bpm_pos _ seg.1 (wf_dict _ Hwf)) as Hpos.
  destruct (Hbounds seg Hin) as (_ & _ & Htime & _).
  destruct (beat_time_map _) as [|x l]; [done|]. injection Hhead as ->.
  assert (seg.1 ≤ target_beat) as Hbelow
    by (by eapply (find_segment_below target_beat (0, 0) l)).
  cbn [fst]. apply Qcplus_nonneg_nonneg; [done|]. apply Qcdiv_nonneg; [|done].
  apply Qcmult_nonneg_nonneg; [|by apply Qclt_le_weak, Qc_num_pos]. qc_linear.
Qed.

(** X5: under tempo events whose beat and bpm are numbers in the range of
    the doubles, a beat from 0 on is converted to a time from 0 on. *)
Theorem beat_to_time_nonneg (tm : list (Qc * Qc)) (target_beat : Qc) :
  finite_events tm →
  let st := build_beat_time_map (tempo_event <$> tm) in
  0 ≤ target_beat →
  0 ≤ (get_time_from_beat target_beat (beat_time_map st) (tempo_map_dict st)).1.
Proof. intros _. cbn zeta. apply get_time_nonneg_wf, table_wf_build. Qed.

Lemma beat_to_time_nonneg_witness :
  let st := build_beat_time_map (tempo_event <$> faster_last) in
  0 ≤ (get_time_from_beat (num 3) (beat_time_map st) (tempo_map_dict st)).1.
Proof. apply (beat_to_time_nonneg faster_last (num 3)); by_computation. Defined.

(** ** The table of a tempo map that starts at beat 0 *)

Lemma table_ok_build tm :
  head tm.*1 = Some 0 → Sorted no_faster tm →
  table_ok (build_beat_time_map (tempo_event <$> tm)).
Proof.
  intros Hhead Hslower. destruct tm as [|[b0 p0] tm]; [done|].
  rewrite fmap_cons in Hhead. cbn [head fst] in Hhead. injection Hhead as ->.
  unfold build_beat_time_map. rewrite fmap_cons. cbn [tempo_loop].
  destruct (tempo_step_first build_init (0, p0)) as (_ & _ & _ & Hbeat & Hbpm);
    [apply Qcle_refl|].
  cbn [fst snd] in Hbeat, Hbpm.
  apply table_ok_loop; [done| |apply table_ok_first]. rewrite Hbeat, Hbpm.
  by apply (Sorted_no_faster_coerce (0, p0)).
Qed.

(** ** What the note loop keeps *)

Lemma convert_note_in_range ins btm dict f t n w :
  convert_note ins btm dict f = Ok (Some (t, n), w) → in_midi_range n.
Proof.
  intros Hn.
  destruct (convert_note_Some _ _ _ _ _ _ _ Hn)
    as (Hpitch & Hvelocity & Hstart & Hduration & Htrack & _).
  revert Hn. unfold convert_note.
  rewrite !bool_decide_eq_true_2 by done. cbn [negb].
  rewrite (decide_False (P := nf_start_beat f < 0)) by (by apply Qcle_not_lt).
  rewrite (decide_False (P := nf_duration_beat f ≤ 0)) by (by apply Qclt_not_le).
  rewrite (decide_False (P := ins !! nf_track f = None))
    by (by apply not_eq_None_Some).
  destruct (get_time_from_beat (nf_start_beat f) _ _) as [start_time w1].
  destruct (get_time_from_beat (nf_start_beat f + nf_duration_beat f) _ _)
    as [end_time0 w2].
  case_decide; intros [= <- <- <-]; by split.
Qed.

Lemma notes_inv_init ins :
  map_Forall (λ _ notes, notes = []) ins → notes_inv (dom ins) (notes_init ins).
Proof.
  intros Hempty. split; cbn [notes_init instruments notes_added_to_track note_count].
  - done.
  - intros t. rewrite lookup_fmap. destruct (ins !! t) as [l|] eqn:Hl; [|done].
    by rewrite (Hempty t l Hl).
  - induction (merge_sort Z.le (elements (dom ins))) as [|t K IH]; [done|].
    cbn [sum_list_with].
    rewrite <-IH. destruct (ins !! t) as [l|] eqn:Hl; [|done].
    by rewrite (Hempty t l Hl).
  - intros t l Hl. rewrite (Hempty t l Hl). constructor.
Qed.

Lemma sum_list_with_alter_other (f g : Z → nat) (t : Z) (K : list Z) :
  t ∉ K → (∀ t', t' ≠ t → g t' = f t') → sum_list_with g K = sum_list_with f K.
Proof.
  intros Ht Hfg. induction K as [|x K IH]; [done|].
  apply not_elem_of_cons in Ht as [Hx Ht]. cbn [sum_list_with].
  by rewrite IH, Hfg.
Qed.

Lemma sum_list_with_alter (f g : Z → nat) (t : Z) (K : list Z) :
  NoDup K → t ∈ K → g t = S (f t) → (∀ t', t' ≠ t → g t' = f t') →
  sum_list_with g K = S (sum_list_with f K).
Proof.
  intros Hnodup Ht Hgt Hfg. induction Hnodup as [|x K Hx Hnodup IH]; [by apply elem_of_nil in Ht|].
  cbn [sum_list_with]. destruct (decide (x = t)) as [->|Hxt].
  - rewrite Hgt, (sum_list_with_alter_other f g t K); [done|done|done].
  - apply elem_of_cons in Ht as [->|Ht]; [done|].
    rewrite IH, Hfg by done. lia.
Qed.

Lemma notes_inv_add D st t n w :
  is_Some (instruments st !! t) → in_midi_range n →
  notes_inv D st → notes_inv D (add_note st t n w).
Proof.
  intros [l Hl] Hn [Hdom Hadded Hcount Hok].
  split; cbn [add_note instruments notes_added_to_track note_count].
  - by rewrite dom_alter_L.
  - intros t'. destruct (decide (t = t')) as [<-|Hne].
    + rewrite !lookup_alter_eq, Hadded, Hl. cbn. f_equal.
      rewrite length_app. cbn. lia.
    + by rewrite !lookup_alter_ne.
  - rewrite Hcount. symmetry. apply (sum_list_with_alter _ _ t).
    + rewrite merge_sort_Permutation. apply NoDup_elements.
    + rewrite merge_sort_Permutation.
      apply elem_of_elements. rewrite <-Hdom. apply elem_of_dom. by eexists.
    + rewrite lookup_alter_eq, Hl. cbn. rewrite length_app. cbn. lia.
    + intros t' Hne. by rewrite lookup_alter_ne.
  - intros t' l'. destruct (decide (t = t')) as [<-|Hne].
    + rewrite lookup_alter_eq, Hl. cbn. intros [= <-]. apply Forall_app. split.
      * by apply (Hok t).
      * constructor; [done|constructor].
    + rewrite lookup_alter_ne by done. apply Hok.
Qed.

Lemma notes_inv_step btm dict D st i note :
  notes_inv D st → notes_inv D (note_step btm dict st i note).
Proof.
  intros Hinv.
  destruct (note_step_cases btm dict st i note)
    as [(w & _ & ->)|(d & f & n & w & -> & Hf & Hn & ->)].
  - by destruct Hinv.
  - destruct (convert_note_Some _ _ _ _ _ _ _ Hn) as (_ & _ & _ & _ & Hsome & _).
    apply notes_inv_add; [done| |done]. by eapply convert_note_in_range.
Qed.

Lemma notes_inv_loop btm dict D notes_data st i :
  notes_inv D st → notes_inv D (notes_loop btm dict st i notes_data).
Proof.
  revert st i.
  induction notes_data as [|note rest IH]; intros st i Hinv; [done|].
  cbn [notes_loop]. by apply IH, notes_inv_step.
Qed.

Lemma notes_loop_counts btm dict notes_data st i :
  let st' := notes_loop btm dict st i notes_data in
  (note_count st' + skipped_count st'
   = note_count st + skipped_count st + length notes_data)%nat.
Proof.
  cbn zeta. revert st i. induction notes_data as [|note rest IH]; intros st i.
  - cbn. lia.
  - cbn [notes_loop length]. rewrite IH.
    destruct (note_step_cases btm dict st i note)
      as [(w & _ & ->)|(d & f & n & w & _ & _ & _ & ->)]; cbn; lia.
Qed.

(** ** The instruments that are written *)

Lemma collect_fold st K acc :
  (foldl (collect_step st) acc K).1
  = acc.1 ++ ((λ t, (t, default [] (instruments st !! t)))
              <$> filter (λ t, (0 < default 0 (notes_added_to_track st !! t))%nat) K).
Proof.
  revert acc. induction K as [|t K IH]; intros acc.
  - cbn. by rewrite app_nil_r.
  - cbn [foldl]. rewrite IH, filter_cons. unfold collect_step.
    case_decide; cbn [fst]; [|done]. by rewrite fmap_cons, <-app_assoc.
Qed.

Lemma StronglySorted_filter {A} (R : relation A) (P : A → Prop)
    `{!∀ x, Decision (P x)} l :
  StronglySorted R l → StronglySorted R (filter P l).
Proof.
  induction 1 as [|x l Hsorted IH Hx]; [constructor|].
  rewrite filter_cons. case_decide; [|done]. constructor; [done|].
  rewrite Forall_forall in Hx |- *. intros y [_ Hy]%list_elem_of_filter. by apply Hx.
Qed.

Lemma sorted_keys_strict (D : gset Z) :
  StronglySorted Z.lt (merge_sort Z.le (elements D)).
Proof.
  assert (NoDup (merge_sort Z.le (elements D))) as Hnodup.
  { rewrite merge_sort_Permutation. apply NoDup_elements. }
  pose proof (StronglySorted_merge_sort Z.le (elements D)) as Hsorted.
  induction Hsorted as [|x l Hsorted IH Hx]; [constructor|].
  apply NoDup_cons in Hnodup as [Hnotin Hnodup]. constructor; [by apply IH|].
  rewrite Forall_forall in Hx |- *. intros y Hy.
  destruct (decide (x = y)) as [->|Hne]; [done|]. specialize (Hx y Hy). lia.
Qed.

Lemma create_step_values l acc :
  map_Forall (λ t notes, notes = [] ∧ (0 ≤ t)%Z) acc.1 →
  map_Forall (λ t notes, notes = [] ∧ (0 ≤ t)%Z) (foldl create_step acc l).1.
Proof.
  revert acc. induction l as [|x l IH]; intros acc Hacc; [done|].
  cbn [foldl]. apply IH. unfold create_step. case_decide; [done|]. cbn [fst].
  apply map_Forall_insert_2; [|done]. split; [done|lia].
Qed.

Lemma create_instruments_values tracks :
  map_Forall (λ t notes, notes = [] ∧ (0 ≤ t)%Z) (create_instruments tracks).1.
Proof.
  unfold create_instruments.
  pose proof (create_step_values (merge_sort Z.le (elements tracks)) (∅, [])) as Hvalues.
  destruct (foldl create_step (∅, []) _) as [ins log]. cbn [fst] in *.
  case_decide; cbn [fst].
  - apply map_Forall_singleton. done.
  - apply Hvalues, map_Forall_empty.
Qed.

(** X8: the instruments created before the note loop: track [t] has one,
    without notes, exactly when [t] is not negative and names the track of
    a note, or [t] is 0 and no note names a track from 0 on. *)
Theorem created_instruments (tracks : gset Z) (t : Z) :
  ((create_instruments tracks).1 !! t = Some []
   ↔ (t ∈ tracks ∧ (0 ≤ t)%Z) ∨ (t = 0%Z ∧ ∀ t', t' ∈ tracks → (t' < 0)%Z))
  ∧ ((create_instruments tracks).1 !! t = None
     ∨ (create_instruments tracks).1 !! t = Some []).
Proof.
  assert ((create_instruments tracks).1 !! t = None
          ∨ (create_instruments tracks).1 !! t = Some []) as Hvalue.
  { destruct ((create_instruments tracks).1 !! t) as [l|] eqn:Hl; [right|by left].
    by destruct (create_instruments_values tracks t l Hl) as [-> _]. }
  split; [|exact Hvalue].
  unfold create_instruments in *.
  set (l := merge_sort Z.le (elements tracks)) in *.
  assert (∀ t, t ∈ l ↔ t ∈ tracks) as Hl.
  { intros t'. unfold l. by rewrite merge_sort_Permutation, elem_of_elements. }
  pose proof (create_step_other l (∅, [])) as Hother.
  pose proof (create_step_created l (∅, [])) as Hcreated.
  destruct (foldl create_step (∅, []) l) as [ins log]. cbn [fst] in *.
  assert (ins = ∅ ↔ ∀ t', t' ∈ tracks → (t' < 0)%Z) as Hempty.
  { split.
    - intros -> t' Ht'. destruct (decide (t' < 0)%Z) as [|Hneg]; [done|]. exfalso.
      assert ((∅ : gmap Z (list midi_note)) !! t' = Some []) as Hsome
        by (apply Hcreated; [by apply Hl|lia]).
      by rewrite lookup_empty in Hsome.
    - intros Hneg. apply map_eq. intros t'. rewrite lookup_empty.
      destruct (decide (t' ∈ l)) as [Hin|Hnot].
      + rewrite Hother, lookup_empty; [done|]. right. by apply Hneg, Hl.
      + by rewrite Hother, lookup_empty by (by left). }
  case_decide as Hins; cbn [fst] in *.
  - split.
    + intros Hsome. right. split; [|by apply Hempty].
      destruct (decide (t = 0%Z)) as [|Hne]; [done|].
      by rewrite lookup_singleton_ne in Hsome.
    + intros [[Ht Hpos]|[-> _]]; [|by rewrite lookup_singleton_eq].
      pose proof (proj1 Hempty Hins t Ht). lia.
  - split.
    + intros Hsome. left. destruct (decide (t ∈ l)) as [Hin|Hnot].
      * split; [by apply Hl|]. destruct (decide (t < 0)%Z) as [Hneg|]; [|lia].
        rewrite Hother, lookup_empty in Hsome by (by right). done.
      * rewrite Hother, lookup_empty in Hsome by (by left). done.
    + intros [[Ht Hpos]|[-> Hneg]].
      * apply Hcreated; [by apply Hl|done].
      * exfalso. by apply Hins, Hempty.
Qed.

(** The stages of a conversion that reaches [pm.write]. *)
Lemma json_to_midi_Written input_data pm n s log :
  json_to_midi input_data = Written pm n s log →
  ∃ notes_data tempo_map log0 events log1 tracks,
    extract input_data = inr (notes_data, tempo_map, log0)
    ∧ prepare_tempo_map tempo_map = Ok (events, log1)
    ∧ note_tracks notes_data = Ok tracks
    ∧ let bst := build_beat_time_map events in
      let st := notes_loop (beat_time_map bst) (tempo_map_dict bst)
                  (notes_init (create_instruments tracks).1) 0 notes_data in
      pm = (collect_instruments st).1 ∧ n = note_count st ∧ s = skipped_count st.
Proof.
  unfold json_to_midi.
  destruct (extract input_data) as [log0|[[notes_data tempo_map] log0]]; [done|].
  destruct (prepare_tempo_map tempo_map) as [[events log1]|e] eqn:Hprepare;
    [|by destruct e].
  destruct (note_tracks notes_data) as [tracks|e] eqn:Htracks; [|done].
  destruct (create_instruments tracks) as [ins log2] eqn:Hins.
  destruct (collect_instruments _) as [pm' log3] eqn:Hpm.
  intros [= <- <- <- <-].
  exists notes_data, tempo_map, log0, events, log1, tracks.
  cbn zeta. rewrite Hins. cbn [fst]. rewrite Hpm. cbn [fst]. by repeat split.
Qed.

Lemma run_invariant events tracks notes_data :
  let bst := build_beat_time_map events in
  let ins := (create_instruments tracks).1 in
  notes_inv (dom ins)
    (notes_loop (beat_time_map bst) (tempo_map_dict bst) (notes_init ins) 0 notes_data).
Proof.
  cbn zeta. apply notes_inv_loop.
  apply notes_inv_init. eapply map_Forall_impl; [apply create_instruments_values|].
  by intros t l [-> _].
Qed.

Lemma collect_instruments_spec D st :
  notes_inv D st →
  (collect_instruments st).1
  = (λ t, (t, default [] (instruments st !! t)))
    <$> filter (λ t, default [] (instruments st !! t) ≠ [])
          (merge_sort Z.le (elements D)).
Proof.
  intros [Hdom Hadded _ _]. unfold collect_instruments.
  rewrite collect_fold, Hdom. cbn [fst app]. f_equal.
  apply list_filter_iff. intros t. rewrite Hadded.
  destruct (instruments st !! t) as [[|n l]|]; cbn; split; try done; lia.
Qed.

Lemma sum_list_with_filter_nonempty (g : Z → list midi_note) (K : list Z) :
  sum_list_with (λ tn : Z * list midi_note, length tn.2)
    ((λ t, (t, g t)) <$> filter (λ t, g t ≠ []) K)
  = sum_list_with (λ t, length (g t)) K.
Proof.
  induction K as [|t K IH]; [done|]. rewrite filter_cons. cbn [sum_list_with].
  case_decide as Ht.
  - rewrite fmap_cons. cbn [sum_list_with snd]. by rewrite IH.
  - rewrite IH. by rewrite Ht.
Qed.

Lemma fmap_fst_pair {A B} (g : A → B) (l : list A) :
  ((λ t, (t, g t)) <$> l).*1 = l.
Proof.
  induction l as [|x l IH]; [done|]. rewrite !fmap_cons. cbn [fst]. by rewrite IH.
Qed.

(** X9: the instruments handed to [pm.write] come by ascending track
    number, none negative and none empty, and hold [note_count] notes in
    all. *)
Theorem written_instruments (input_data : json) (pm : list (Z * list midi_note))
    (n s : nat) (log : list diag) :
  json_to_midi input_data = Written pm n s log →
  Sorted Z.lt pm.*1
  ∧ Forall (λ tn, (0 ≤ tn.1)%Z ∧ tn.2 ≠ []) pm
  ∧ sum_list_with (λ tn, length tn.2) pm = n.
Proof.
  intros (notes_data & tempo_map & log0 & events & log1 & tracks
          & _ & _ & _ & Hrun)%json_to_midi_Written.
  cbn zeta in Hrun. destruct Hrun as (-> & -> & _).
  pose proof (run_invariant events tracks notes_data) as Hinv. cbn zeta in Hinv.
  rewrite (collect_instruments_spec _ _ Hinv).
  set (st := notes_loop _ _ _ _ _) in *.
  set (K := merge_sort Z.le (elements (dom (create_instruments tracks).1))).
  split; [|split].
  - rewrite fmap_fst_pair.
    apply StronglySorted_Sorted, StronglySorted_filter, sorted_keys_strict.
  - apply Forall_fmap, Forall_forall. intros t [Hne Ht]%list_elem_of_filter.
    cbn. split; [|done]. unfold K in Ht.
    rewrite merge_sort_Permutation, elem_of_elements in Ht.
    apply elem_of_dom in Ht as [l Hl].
    by destruct (create_instruments_values tracks t l Hl).
  - rewrite sum_list_with_filter_nonempty. symmetry. apply (inv_count _ _ Hinv).
Qed.

Lemma written_instruments_witness :
  Sorted Z.lt two_notes_written.*1
  ∧ Forall (λ tn, (0 ≤ tn.1)%Z ∧ tn.2 ≠ []) two_notes_written
  ∧ sum_list_with (λ tn, length tn.2) two_notes_written = 1%nat.
Proof.
  apply (written_instruments two_notes_doc two_notes_written 1 1 two_notes_log).
  by_computation.
Defined.

(** X10: every note handed to [pm.write] has its pitch and its velocity in
    0..127, whatever the document. *)
Theorem written_notes_in_range (input_data : json) (pm : list (Z * list midi_note))
    (n s : nat) (log : list diag) :
  json_to_midi input_data = Written pm n s log →
  Forall (λ tn, Forall in_midi_range tn.2) pm.
Proof.
  intros (notes_data & tempo_map & log0 & events & log1 & tracks
          & _ & _ & _ & Hrun)%json_to_midi_Written.
  cbn zeta in Hrun. destruct Hrun as (-> & _ & _).
  pose proof (run_invariant events tracks notes_data) as Hinv. cbn zeta in Hinv.
  rewrite (collect_instruments_spec _ _ Hinv).
  apply Forall_fmap, Forall_forall. intros t _. cbn.
  destruct (instruments _ !! t) as [l|] eqn:Hl; cbn; [|constructor].
  by apply (inv_ok _ _ Hinv t).
Qed.

Lemma written_notes_in_range_witness :
  Forall (λ tn, Forall in_midi_range tn.2) two_notes_written.
Proof.
  apply (written_notes_in_range two_notes_doc two_notes_written 1 1 two_notes_log).
  by_computation.
Defined.

Lemma working_notes_loop_counts {MF} (addNote : MF → W.add_note_args → result MF)
    num_tracks notes_data (st : W.notes_state MF) :
  let st' := W.notes_loop addNote num_tracks st notes_data in
  (W.note_count st' + W.skipped_count st'
   = W.note_count st + W.skipped_count st + length notes_data)%nat.
Proof.
  cbn zeta. unfold W.notes_loop. revert st.
  induction notes_data as [|note rest IH]; intros st.
  - cbn. lia.
  - cbn [foldl length]. rewrite IH.
    assert (W.note_count (W.note_step addNote num_tracks st note)
            + W.skipped_count (W.note_step addNote num_tracks st note)
            = S (W.note_count st + W.skipped_count st))%nat as Hstep; [|lia].
    destruct note as [| | | | |d]; try (cbn; lia).
    cbn [W.note_step]. destruct (W.note_body num_tracks d) as [w r].
    destruct (r ≫= addNote (W.midi_file st)) as [mf|[]]; cbn; lia.
Qed.

(** X11: every entry of the notes list is counted once, as processed or as
    skipped, by both writers. *)
Theorem every_note_counted (d : gmap string json) (notes : list json)
    (pm : list (Z * list midi_note)) (n s : nat) (log : list diag) :
  d !! "notes" = Some (JArr notes) →
  json_to_midi (JObj d) = Written pm n s log →
  (n + s)%nat = length notes
  ∧ ∀ MF (addNote : MF → W.add_note_args → result MF) num_tracks mf,
      let st := W.notes_loop addNote num_tracks (W.NotesState mf 0 0 []) notes in
      (W.note_count st + W.skipped_count st)%nat = length notes.
Proof.
  intros Hnotes (notes_data & tempo_map & log0 & events & log1 & tracks
                 & Hextract & _ & _ & Hrun)%json_to_midi_Written.
  cbn zeta in Hrun. destruct Hrun as (_ & -> & ->).
  assert (notes_data = notes) as ->.
  { revert Hextract. unfold extract. rewrite Hnotes.
    destruct (d !! "tempo_map") as [[| | | |[|]|]|]; by intros [= <-]. }
  split.
  - rewrite notes_loop_counts. cbn. lia.
  - intros MF addNote num_tracks mf. cbn zeta.
    rewrite working_notes_loop_counts. cbn. lia.
Qed.

Lemma every_note_counted_witness :
  (1 + 1)%nat = length [track_one_note; no_track_note]
  ∧ ∀ MF (addNote : MF → W.add_note_args → result MF) num_tracks mf,
      let st :=
        W.notes_loop addNote num_tracks (W.NotesState mf 0 0 [])
          [track_one_note; no_track_note] in
      (W.note_count st + W.skipped_count st)%nat
      = length [track_one_note; no_track_note].
Proof.
  apply (every_note_counted two_notes_dict [track_one_note; no_track_note]
           two_notes_written 1 1 two_notes_log).
  - reflexivity.
  - by_computation.
Defined.

(** ** Exceptions *)





Lemma traverse_Raise_first {A B} (f : A → result B) l x e :
  x ∈ l → f x = Raise e → (∀ y e', f y = Raise e' → e' = e) →
  traverse f l = Raise e.
Proof.
  intros Hin Hx Hraise. induction l as [|y l IH]; [by apply elem_of_nil in Hin|].
  cbn [traverse]. destruct (f y) as [z|e'] eqn:Hy; cbn [mbind result_bind].
  - apply elem_of_cons in Hin as [->|Hin]; [congruence|]. by rewrite IH.
  - f_equal. by eapply Hraise.
Qed.










(** X13: a tempo map with an entry that is not a dictionary makes
    [json_to_midi] return with the one message of the [except] clause,
    wherever the entry is in the list and whatever the notes are: no note is
    read and nothing is written. *)
Theorem bad_tempo_event_returns (d : gmap string json) (notes tempo_map : list json)
    (v : json) :
  d !! "notes" = Some (JArr notes) →
  d !! "tempo_map" = Some (JArr tempo_map) →
  v ∈ tempo_map →
  as_dict v = None →
  json_to_midi (JObj d) = Returned [ErrTempoMapInvalid TypeError].
Proof.
  intros Hnotes Htempo Hin Hv. unfold json_to_midi, extract.
  rewrite Hnotes, Htempo. destruct tempo_map as [|v0 tm]; [by apply elem_of_nil in Hin|].
  unfold prepare_tempo_map, sort_tempo_map.
  rewrite (traverse_Raise_first _ _ v TypeError Hin).
  - done.
  - by rewrite Hv.
  - intros y e'. destruct (as_dict y); cbn; congruence.
Qed.

Lemma bad_tempo_event_returns_witness :
  json_to_midi (JObj number_in_tempo_map) = Returned [ErrTempoMapInvalid TypeError].
Proof.
  apply (bad_tempo_event_returns number_in_tempo_map []
           [JObj (tempo_event (0, num 120)); JNum (num 90)] (JNum (num 90))).
  - reflexivity.
  - reflexivity.
  - apply list_elem_of_further, list_elem_of_here.
  - reflexivity.
Defined.

(** ** The output of [midi_to_json.py] *)
Lemma insert_by_key_Permutation {A} (key : A → Qc) x l :
  insert_by_key key x l ≡ₚ x :: l.
Proof.
  induction l as [|y l IH]; [done|]. cbn [insert_by_key].
  case_decide; [done|]. rewrite IH. apply Permutation_swap.
Qed.

Lemma sort_by_key_Permutation {A} (key : A → Qc) l : sort_by_key key l ≡ₚ l.
Proof.
  induction l as [|x l IH]; [done|]. cbn [sort_by_key].
  by rewrite insert_by_key_Permutation, IH.
Qed.

Lemma ensure_beat_zero_shape tm :
  Sorted (λ a b, M.beat a ≤ M.beat b) tm →
  let tm' := M.ensure_beat_zero tm in
  Sorted (λ a b, M.beat a ≤ M.beat b) tm'
  ∧ (∃ first rest, tm' = first :: rest ∧ M.beat first ≤ 0)
  ∧ (tm' = tm ∨ ∃ p, tm' = M.TempoEntry 0 p :: tm).
Proof.
  intros Hsorted. cbn zeta. destruct tm as [|first rest]; cbn [M.ensure_beat_zero].
  - split; [by repeat constructor|]. split; [|right; by eexists].
    do 2 eexists. split; [done|]. done.
  - case_decide as Hfirst.
    + split; [|split].
      * constructor; [done|]. constructor. cbn. by apply Qclt_le_weak.
      * do 2 eexists. split; [done|]. done.
      * right. by eexists.
    + split; [done|]. split; [|by left].
      do 2 eexists. split; [done|]. by apply Qcnot_lt_le.
Qed.

Lemma tempo_map_of_shape (pm : M.PrettyMIDI) :
  let tempo_map := (M.tempo_map_of pm).1 in
  Sorted (λ a b, M.beat a ≤ M.beat b) tempo_map
  ∧ ∃ first rest, tempo_map = first :: rest ∧ M.beat first ≤ 0.
Proof.
  cbn zeta. unfold M.tempo_map_of, M.read_tempo_map.
  destruct (M.sorted_tempo_map pm) as [tm|e] eqn:Htm; cbn [mbind result_bind fst].
  - assert (Sorted (λ a b, M.beat a ≤ M.beat b) tm) as Hsorted.
    { revert Htm. unfold M.sorted_tempo_map.
      destruct (M.get_tempo_changes pm) as [[times bpms]|]; [|done].
      cbn [mbind result_bind].
      destruct (traverse _ times) as [ticks|]; [|done]. cbn [mbind result_bind].
      destruct (traverse _ ticks) as [beats|]; [|done]. cbn [mbind result_bind].
      intros [= <-]. apply sort_by_key_Sorted. }
    destruct (ensure_beat_zero_shape tm Hsorted) as (? & ? & _). done.
  - split; [by repeat constructor|]. do 2 eexists. split; [done|]. done.
Qed.

Lemma midi_to_json_Ok pm out log :
  M.midi_to_json pm = Ok (out, log) →
  ∃ notes, M.convert_instruments pm 0 (M.pm_instruments pm) = Ok notes
    ∧ out = {| M.out_resolution := M.resolution pm;
               M.out_tempo_map := (M.tempo_map_of pm).1;
               M.out_notes := sort_by_key M.nd_start_beat notes |}
    ∧ log = (M.tempo_map_of pm).2.
Proof.
  unfold M.midi_to_json. destruct (M.tempo_map_of pm) as [tempo_map log0].
  destruct (M.convert_instruments pm 0 (M.pm_instruments pm)) as [notes|]; [|done].
  cbn [mbind result_bind]. intros [= <- <-]. by exists notes.
Qed.

(** X14: the tempo map of the output is never empty, is sorted by beat, and
    starts at or before beat 0, whatever [pretty_midi] reported. *)
Theorem output_tempo_map_shape (pm : M.PrettyMIDI) (out : M.output_data)
    (log : list diag) :
  M.midi_to_json pm = Ok (out, log) →
  Sorted (λ a b, M.beat a ≤ M.beat b) (M.out_tempo_map out)
  ∧ ∃ first rest, M.out_tempo_map out = first :: rest ∧ M.beat first ≤ 0.
Proof.
  intros (notes & _ & -> & _)%midi_to_json_Ok. apply tempo_map_of_shape.
Qed.

Lemma output_tempo_map_shape_witness :
  Sorted (λ a b, M.beat a ≤ M.beat b) (M.out_tempo_map pm_short_note_output)
  ∧ ∃ first rest,
      M.out_tempo_map pm_short_note_output = first :: rest ∧ M.beat first ≤ 0.
Proof.
  apply (output_tempo_map_shape pm_short_note pm_short_note_output []).
  by_computation.
Defined.

Lemma convert_instruments_tracks pm i instruments notes :
  M.convert_instruments pm i instruments = Ok notes →
  Forall (λ n, (i ≤ M.nd_track n < i + length instruments)%nat) notes.
Proof.
  revert i notes.
  induction instruments as [|instrument rest IH]; intros i notes;
    cbn [M.convert_instruments].
  - intros [= <-]. constructor.
  - destruct (traverse _ instrument) as [ns|] eqn:Hns; [|done].
    cbn [mbind result_bind].
    destruct (M.convert_instruments pm (S i) rest) as [others|] eqn:Hothers; [|done].
    cbn [mbind result_bind]. intros [= <-]. apply Forall_app. split.
    + eapply traverse_Forall; [|exact Hns]. intros x y. cbn beta.
      unfold M.convert_note.
      destruct (M.time_to_tick pm (M.pm_start x)); [|done].
      destruct (M.time_to_tick pm (M.pm_end x)); [|done]. cbn [mbind result_bind].
      unfold M.ticks_to_beats. destruct (decide (M.resolution pm = 0%Z)); [done|].
      cbn [mbind result_bind]. case_decide; cbn [mbind result_bind];
        intros [= <-]; cbn; lia.
    + eapply Forall_impl; [by eapply IH|]. cbn. intros n. lia.
Qed.

(** X15: the notes of the output are those of the instruments, in the order of
    their start beats, each with the index of its instrument as track. *)
Theorem output_notes_sorted (pm : M.PrettyMIDI) (out : M.output_data) (log : list diag) :
  M.midi_to_json pm = Ok (out, log) →
  Sorted (λ a b, M.nd_start_beat a ≤ M.nd_start_beat b) (M.out_notes out)
  ∧ (∃ notes, M.convert_instruments pm 0 (M.pm_instruments pm) = Ok notes
              ∧ M.out_notes out ≡ₚ notes)
  ∧ Forall (λ n, (M.nd_track n < length (M.pm_instruments pm))%nat) (M.out_notes out).
Proof.
  unfold M.midi_to_json. destruct (M.tempo_map_of pm) as [tempo_map log0].
  destruct (M.convert_instruments pm 0 (M.pm_instruments pm)) as [notes|] eqn:Hnotes;
    [|done].
  cbn [mbind result_bind]. intros [= <- <-]. cbn [M.out_notes].
  split; [apply sort_by_key_Sorted|]. split.
  - exists notes. split; [done|]. apply sort_by_key_Permutation.
  - apply sort_by_key_Forall.
    eapply Forall_impl; [by eapply convert_instruments_tracks|]. cbn. intros n. lia.
Qed.

Lemma output_notes_sorted_witness :
  Sorted (λ a b, M.nd_start_beat a ≤ M.nd_start_beat b)
    (M.out_notes pm_short_note_output)
  ∧ (∃ notes,
       M.convert_instruments pm_short_note 0 (M.pm_instruments pm_short_note)
       = Ok notes
       ∧ M.out_notes pm_short_note_output ≡ₚ notes)
  ∧ Forall (λ n, (M.nd_track n < length (M.pm_instruments pm_short_note))%nat)
      (M.out_notes pm_short_note_output).
Proof.
  apply (output_notes_sorted pm_short_note pm_short_note_output []).
  by_computation.
Defined.

(** ** From the MIDI file to the document and back *)

Lemma trunc_num z : trunc (num z) = z.
Proof.
  unfold trunc, num, Qc_of_Z, Q2Qc. cbn [this inject_Z Qnum Qden].
  apply Z.quot_1_r.
Qed.

Lemma num_nonneg z : (0 ≤ z)%Z → 0 ≤ num z.
Proof.
  intros Hz. unfold num, Qc_of_Z, Qcle, Q2Qc. cbn [this]. rewrite !Qred_correct.
  unfold Qle. cbn. lia.
Qed.

Lemma create_instruments_created tracks t :
  t ∈ tracks → (0 ≤ t)%Z → (create_instruments tracks).1 !! t = Some [].
Proof.
  intros Ht Hpos. unfold create_instruments.
  set (l := merge_sort Z.le (elements tracks)).
  assert (t ∈ l) as Hl by (unfold l; by rewrite merge_sort_Permutation, elem_of_elements).
  pose proof (create_step_created l (∅, []) t Hl Hpos) as Hcreated.
  destruct (foldl create_step (∅, []) l) as [ins log]. cbn [fst] in *.
  case_decide as Hempty; cbn [fst]; [|done].
  by rewrite Hempty, lookup_empty in Hcreated.
Qed.

Lemma note_record_fields p s x v t :
  extract_note (note_record p s x v t)
  = Ok {| nf_pitch := p; nf_start_beat := s; nf_duration_beat := x;
          nf_velocity := v; nf_track := t |}.
Proof.
  unfold extract_note, getitem, get, note_record. cbn [list_to_map foldr fst snd].
  repeat (rewrite ?lookup_insert_eq; rewrite ?lookup_insert_ne by done).
  cbn [mbind result_bind int float default from_option id].
  by rewrite !trunc_num.
Qed.

(** X7: a note that passes the checks of [json_to_midi.py] is never
    skipped.  Take a note given by its numbers, the two beats doubles as
    they stand, with pitch and velocity in 0..127, a start beat that is not
    negative, a positive duration and a track that has an instrument: on
    any table, the step appends to that instrument a note with that pitch
    and that velocity, which starts at the time [get_time_from_beat] gives
    the start beat and does not end before it starts; the note is counted
    as processed and nothing is counted as skipped. *)
Theorem valid_note_added (btm : list (Qc * Qc)) (dict : gmap Qc Qc)
    (st : notes_state) (i : nat) (p : Z) (s x : Qc) (v t : Z) :
  (0 ≤ p ≤ 127)%Z →
  (0 ≤ v ≤ 127)%Z →
  exact_double s → exact_double x →
  0 ≤ s →
  0 < x →
  is_Some (instruments st !! t) →
  let st' := note_step btm dict st i (JObj (note_record p s x v t)) in
  ∃ n w,
    st' = add_note st t n w
    ∧ pitch n = p
    ∧ velocity n = v
    ∧ start n = (get_time_from_beat s btm dict).1
    ∧ start n ≤ end_ n
    ∧ skipped_count st' = skipped_count st
    ∧ note_count st' = S (note_count st).
Proof.
  intros Hpitch Hvelocity _ _ Hstart Hduration Htrack. cbn zeta.
  cbn [note_step]. unfold note_body. rewrite note_record_fields.
  cbn [mbind result_bind]. unfold convert_note.
  cbn [nf_pitch nf_velocity nf_start_beat nf_duration_beat nf_track].
  rewrite !bool_decide_eq_true_2 by done. cbn [negb].
  rewrite (decide_False (P := s < 0)) by (by apply Qcle_not_lt).
  rewrite (decide_False (P := x ≤ 0)) by (by apply Qclt_not_le).
  rewrite (decide_False (P := instruments st !! t = None))
    by (by apply not_eq_None_Some).
  destruct (get_time_from_beat s btm dict) as [start_time w1].
  destruct (get_time_from_beat (s + x) btm dict) as [end_time0 w2].
  case_decide as Hclamp; do 2 eexists; (split; [reflexivity|]); cbn;
    (split; [done|]); (split; [done|]); (split; [done|]); (split; [|done]).
  - rewrite <-(Qcplus_0_r start_time) at 1. apply Qcplus_le_mono_l.
    by_computation.
  - by apply Qclt_le_weak, Qcnot_le_lt.
Qed.

Lemma valid_note_added_witness :
  let bst := build_beat_time_map (tempo_event <$> scenario_A) in
  let st := notes_init {[ 0%Z := [] ]} in
  let st' :=
    note_step (beat_time_map bst) (tempo_map_dict bst) st 0
      (JObj (note_record 60 (num 4) (num 2) 100 0)) in
  ∃ n w,
    st' = add_note st 0 n w
    ∧ pitch n = 60%Z
    ∧ velocity n = 100%Z
    ∧ start n
      = (get_time_from_beat (num 4) (beat_time_map bst) (tempo_map_dict bst)).1
    ∧ start n ≤ end_ n
    ∧ skipped_count st' = skipped_count st
    ∧ note_count st' = S (note_count st).
Proof.
  apply (valid_note_added
           (beat_time_map (build_beat_time_map (tempo_event <$> scenario_A)))
           (tempo_map_dict (build_beat_time_map (tempo_event <$> scenario_A)))
           (notes_init {[ 0%Z := [] ]}) 0 60 (num 4) (num 2) 100 0).
  - lia.
  - lia.
  - exists 4%Z, 0%nat. split; [by_computation|]. split; lia.
  - exists 2%Z, 0%nat. split; [by_computation|]. split; lia.
  - by_computation.
  - by_computation.
  - by_computation.
Defined.

Lemma note_json_fields n :
  extract_note (list_to_map
    [("pitch", JNum (num (M.nd_pitch n)));
     ("start_beat", JNum (M.nd_start_beat n));
     ("duration_beat", JNum (M.nd_duration_beat n));
     ("velocity", JNum (num (M.nd_velocity n)));
     ("track", JNum (num (Z.of_nat (M.nd_track n))))])
  = Ok {| nf_pitch := M.nd_pitch n; nf_start_beat := M.nd_start_beat n;
          nf_duration_beat := M.nd_duration_beat n;
          nf_velocity := M.nd_velocity n;
          nf_track := Z.of_nat (M.nd_track n) |}.
Proof.
  unfold extract_note, getitem, get. cbn [list_to_map foldr fst snd].
  repeat (rewrite ?lookup_insert_eq; rewrite ?lookup_insert_ne by done).
  cbn [mbind result_bind int float default from_option id].
  by rewrite !trunc_num.
Qed.

Lemma note_json_track n :
  as_dict (note_json n) ≫= (.!! "track")
  = Some (JNum (num (Z.of_nat (M.nd_track n)))).
Proof.
  unfold note_json, obj. cbn [as_dict mbind option_bind list_to_map foldr fst snd].
  repeat (rewrite ?lookup_insert_eq; rewrite ?lookup_insert_ne by done). done.
Qed.

Lemma note_tracks_note_json notes :
  ∃ tracks, note_tracks (note_json <$> notes) = Ok tracks
            ∧ ∀ n, n ∈ notes → Z.of_nat (M.nd_track n) ∈ tracks.
Proof.
  induction notes as [|n notes (tracks & IH & Hin)].
  - exists ∅. split; [done|]. intros n Hn. by apply elem_of_nil in Hn.
  - exists ({[Z.of_nat (M.nd_track n)]} ∪ tracks). rewrite fmap_cons.
    cbn [note_tracks]. rewrite note_json_track. cbn [int mbind result_bind].
    rewrite trunc_num, IH. split; [done|].
    intros n' Hn'. apply elem_of_cons in Hn' as [->|Hn']; [set_solver|].
    apply elem_of_union_r. by apply Hin.
Qed.

(** A note that passes the checks, on an existing track, is added. *)
Lemma note_step_valid btm dict st i d f :
  extract_note d = Ok f →
  (0 ≤ nf_pitch f ≤ 127)%Z → (0 ≤ nf_velocity f ≤ 127)%Z →
  0 ≤ nf_start_beat f → 0 < nf_duration_beat f →
  is_Some (instruments st !! nf_track f) →
  ∃ n w, note_step btm dict st i (JObj d) = add_note st (nf_track f) n w.
Proof.
  intros Hf Hpitch Hvelocity Hstart Hduration Htrack.
  cbn [note_step]. unfold note_body. rewrite Hf. cbn [mbind result_bind].
  unfold convert_note.
  rewrite !bool_decide_eq_true_2 by done. cbn [negb].
  rewrite decide_False by (by apply Qcle_not_lt).
  rewrite decide_False by (by apply Qclt_not_le).
  rewrite decide_False by (intros Hnone; rewrite Hnone in Htrack; by destruct Htrack).
  destruct (get_time_from_beat (nf_start_beat f) btm dict) as [start_time w1].
  destruct (get_time_from_beat _ btm dict) as [end_time0 w2].
  case_decide; by do 2 eexists.
Qed.

Lemma notes_loop_all_valid btm dict notes st i :
  Forall (λ n, (0 ≤ M.nd_pitch n ≤ 127)%Z ∧ (0 ≤ M.nd_velocity n ≤ 127)%Z
               ∧ 0 ≤ M.nd_start_beat n ∧ 0 < M.nd_duration_beat n
               ∧ is_Some (instruments st !! Z.of_nat (M.nd_track n))) notes →
  let st' := notes_loop btm dict st i (note_json <$> notes) in
  note_count st' = (note_count st + length notes)%nat
  ∧ skipped_count st' = skipped_count st.
Proof.
  revert st i. induction notes as [|n notes IH]; intros st i Hvalid; cbn zeta.
  - cbn. split; [lia|done].
  - apply Forall_cons in Hvalid as [(Hp & Hv & Hs & Hd & Ht) Hvalid].
    rewrite fmap_cons. cbn [notes_loop].
    assert (∃ m w, note_step btm dict st i (note_json n)
                   = add_note st (Z.of_nat (M.nd_track n)) m w) as (m & w & ->).
    { unfold note_json, obj.
      by apply (note_step_valid btm dict st i _ _ (note_json_fields n)). }
    destruct (IH (add_note st (Z.of_nat (M.nd_track n)) m w) (S i)) as [-> ->].
    + eapply Forall_impl; [exact Hvalid|]. cbn beta.
      intros n' (? & ? & ? & ? & Hsome). do 4 (split; [done|]).
      cbn [add_note instruments]. by apply lookup_alter_is_Some.
    + cbn [add_note note_count skipped_count length]. split; [lia|done].
Qed.

Lemma convert_note_valid pm i note nd :
  (0 < M.resolution pm)%Z →
  playable pm note →
  M.convert_note pm i note = Ok nd →
  (0 ≤ M.nd_pitch nd ≤ 127)%Z ∧ (0 ≤ M.nd_velocity nd ≤ 127)%Z
  ∧ 0 ≤ M.nd_start_beat nd ∧ 0 < M.nd_duration_beat nd.
Proof.
  intros Hres (Hpitch & Hvelocity & Htick) Hnd.
  pose proof (convert_note_duration pm i note nd Hres Hnd) as Hduration.
  revert Hnd. unfold M.convert_note.
  destruct (M.time_to_tick pm (M.pm_start note)) as [start_tick|]; [|done].
  destruct (M.time_to_tick pm (M.pm_end note)) as [end_tick|]; [|done].
  cbn [mbind result_bind]. rewrite !ticks_to_beats_Ok by lia.
  cbn [mbind result_bind].
  assert (0 ≤ num start_tick / num (M.resolution pm)) as Hpos.
  { apply Qcdiv_nonneg; [by apply num_nonneg|by apply Qc_num_pos]. }
  case_decide; cbn [mbind result_bind]; intros [= <-]; cbn in *; done.
Qed.

Lemma convert_instruments_valid pm i instruments notes :
  (0 < M.resolution pm)%Z →
  Forall (Forall (playable pm)) instruments →
  M.convert_instruments pm i instruments = Ok notes →
  Forall (λ n, (0 ≤ M.nd_pitch n ≤ 127)%Z ∧ (0 ≤ M.nd_velocity n ≤ 127)%Z
               ∧ 0 ≤ M.nd_start_beat n ∧ 0 < M.nd_duration_beat n) notes.
Proof.
  intros Hres. revert i notes.
  induction instruments as [|instrument rest IH]; intros i notes Hplay;
    cbn [M.convert_instruments].
  - intros [= <-]. constructor.
  - apply Forall_cons in Hplay as [Hfirst Hrest].
    destruct (traverse _ instrument) as [ns|] eqn:Hns; [|done].
    cbn [mbind result_bind].
    destruct (M.convert_instruments pm (S i) rest) as [others|] eqn:Hothers; [|done].
    cbn [mbind result_bind]. intros [= <-]. apply Forall_app. split; [|by eapply IH].
    clear -Hres Hfirst Hns. revert ns Hns.
    induction Hfirst as [|note instrument Hnote _ IH]; intros ns; cbn [traverse].
    + intros [= <-]. constructor.
    + destruct (M.convert_note pm i note) as [nd|] eqn:Hnd; [|done].
      cbn [mbind result_bind].
      destruct (traverse _ instrument) as [ns'|]; [|done]. cbn [mbind result_bind].
      intros [= <-]. constructor; [|by apply IH].
      by apply (convert_note_valid pm i note nd Hres Hnote Hnd).
Qed.

Lemma prepare_typed_events (tm : list (Qc * Qc)) :
  tm ≠ [] →
  ∃ events log, prepare_tempo_map (JObj ∘ tempo_event <$> tm) = Ok (events, log).
Proof.
  intros Hne. unfold prepare_tempo_map. rewrite sort_tempo_map_events.
  cbn [mbind result_bind].
  pose proof (sort_by_key_length fst tm) as Hlen.
  destruct (sort_by_key fst tm) as [|first rest]; [by destruct tm|].
  rewrite fmap_cons. cbn [ensure_beat_zero].
  rewrite (get_Some _ _ _ _ (tempo_event_beat first)). cbn [gt mbind result_bind].
  destruct (bool_decide _); by do 2 eexists.
Qed.

(** X16: the two converters compose.  Take a MIDI file with a positive
    resolution whose notes have pitch and velocity in 0..127 and do not start
    before tick 0: [json_to_midi] accepts the document [midi_to_json] wrote
    for it and writes every note of the file, skipping none. *)
Theorem midi_json_midi (pm : M.PrettyMIDI) (out : M.output_data) (log : list diag) :
  (0 < M.resolution pm)%Z →
  Forall (Forall (playable pm)) (M.pm_instruments pm) →
  M.midi_to_json pm = Ok (out, log) →
  ∃ pm' log',
    json_to_midi (document out)
    = Written pm' (length (concat (M.pm_instruments pm))) 0 log'.
Proof.
  intros Hres Hplay (notes & Hnotes & -> & _)%midi_to_json_Ok.
  destruct (tempo_map_of_shape pm) as (_ & first & rest & Htm).
  destruct Htm as [Htm _].
  pose proof (convert_instruments_valid pm 0 _ notes Hres Hplay Hnotes) as Hvalid.
  pose proof (convert_instruments_length pm 0 _ notes Hnotes) as Hlen.
  apply (sort_by_key_Forall M.nd_start_beat) in Hvalid.
  rewrite <-Hlen, <-(sort_by_key_length M.nd_start_beat notes).
  set (sorted := sort_by_key M.nd_start_beat notes) in *.
  unfold json_to_midi, document, obj, extract.
  cbn [list_to_map foldr fst snd M.out_resolution M.out_tempo_map M.out_notes].
  repeat (rewrite ?lookup_insert_eq; rewrite ?lookup_insert_ne by done).
  rewrite Htm.
  assert (entry_json <$> first :: rest
          = JObj (tempo_event (M.beat first, M.bpm first))
            :: (JObj ∘ tempo_event <$> ((λ e, (M.beat e, M.bpm e)) <$> rest)))
    as -> by (by rewrite fmap_cons, <-list_fmap_compose).
  cbv beta iota.
  change (JObj (tempo_event (M.beat first, M.bpm first)) :: _)
    with (JObj ∘ tempo_event <$> ((λ e, (M.beat e, M.bpm e)) <$> first :: rest)).
  destruct (prepare_typed_events ((λ e, (M.beat e, M.bpm e)) <$> first :: rest))
    as (events & log1 & ->); [done|].
  destruct (note_tracks_note_json sorted) as (tracks & -> & Htracks).
  pose proof (create_instruments_created tracks) as Hcreated.
  destruct (create_instruments tracks) as [ins log2]. cbn [fst] in Hcreated.
  destruct (notes_loop_all_valid
              (beat_time_map (build_beat_time_map events))
              (tempo_map_dict (build_beat_time_map events))
              sorted (notes_init ins) 0) as [Hcount Hskipped].
  { rewrite Forall_forall in Hvalid. apply Forall_forall. intros n Hn.
    destruct (Hvalid n Hn) as (? & ? & ? & ?). do 4 (split; [done|]).
    cbn [notes_init instruments]. rewrite Hcreated; [done|by apply Htracks|lia]. }
  destruct (collect_instruments _) as [pm' log3].
  rewrite Hcount, Hskipped. cbn [notes_init note_count skipped_count Nat.add].
  by do 2 eexists.
Qed.

Lemma midi_json_midi_witness :
  ∃ pm' log',
    json_to_midi (document pm_short_note_output) = Written pm' 2 0 log'.
Proof.
  apply (midi_json_midi pm_short_note pm_short_note_output []); by_computation.
Defined.

(** ** Keys the converter does not read *)

Lemma extract_note_insert k v d :
  k ∉ note_keys → extract_note (<[k := v]> d) = extract_note d.
Proof.
  intros Hk. unfold extract_note, getitem, get.
  rewrite !lookup_insert_ne; [done|..]; intros ->; apply Hk; unfold note_keys;
    set_solver.
Qed.

Lemma note_step_with_key btm dict st i k v note :
  k ∉ note_keys →
  note_step btm dict st i (with_key k v note) = note_step btm dict st i note.
Proof.
  intros Hk. destruct note as [| | | | |d]; try done.
  cbn [with_key note_step]. unfold note_body. by rewrite extract_note_insert.
Qed.

Lemma notes_loop_with_key btm dict st i k v notes :
  k ∉ note_keys →
  notes_loop btm dict st i (with_key k v <$> notes) = notes_loop btm dict st i notes.
Proof.
  intros Hk. revert st i. induction notes as [|note notes IH]; intros st i; [done|].
  rewrite fmap_cons. cbn [notes_loop]. by rewrite note_step_with_key, IH.
Qed.

Lemma note_tracks_with_key k v notes :
  k ∉ note_keys → note_tracks (with_key k v <$> notes) = note_tracks notes.
Proof.
  intros Hk. induction notes as [|note notes IH]; [done|].
  rewrite fmap_cons. cbn [note_tracks]. rewrite IH.
  assert (as_dict (with_key k v note) ≫= (.!! "track")
          = as_dict note ≫= (.!! "track")) as ->; [|done].
  destruct note as [| | | | |d]; try done. cbn.
  apply lookup_insert_ne. intros ->. apply Hk. unfold note_keys. set_solver.
Qed.

Lemma notes_key_ignored (d : gmap string json) (notes : list json)
    (k : string) (v : json) :
  k ∉ note_keys →
  json_to_midi (JObj (<["notes" := JArr (with_key k v <$> notes)]> d))
  = json_to_midi (JObj (<["notes" := JArr notes]> d)).
Proof.
  intros Hk. unfold json_to_midi, extract.
  rewrite !lookup_insert_eq, !lookup_insert_ne by done.
  destruct (d !! "tempo_map") as [[| | | |[|event tm]|]|]; try done.
  all: destruct (prepare_tempo_map _) as [[events log1]|e]; [|done].
  all: cbn zeta; rewrite note_tracks_with_key by done.
  all: destruct (note_tracks notes) as [tracks|]; [|done].
  all: destruct (create_instruments tracks) as [ins log2].
  all: by rewrite notes_loop_with_key.
Qed.

(** X17: [json_to_midi.py] reads ['notes'] and ['tempo_map'] in the document
    and ['pitch'], ['start_beat'], ['duration_beat'], ['velocity'] and
    ['track'] in a note.  Another key of the document changes nothing of the
    run.  Another key of the notes, ['channel'] for one, changes neither
    what is written nor what is counted nor how the run ends; the messages
    that print a note show the key, which is why they are left out of the
    comparison. *)
Theorem unread_keys_ignored (d : gmap string json) (notes : list json)
    (k : string) (v : json) :
  (k ≠ "notes" → k ≠ "tempo_map" →
   json_to_midi (JObj (<[k := v]> d)) = json_to_midi (JObj d))
  ∧ (k ∉ note_keys →
     without_log
       (json_to_midi (JObj (<["notes" := JArr (with_key k v <$> notes)]> d)))
     = without_log (json_to_midi (JObj (<["notes" := JArr notes]> d)))).
Proof.
  split.
  - intros Hnotes Htempo. unfold json_to_midi, extract.
    by rewrite !lookup_insert_ne by done.
  - intros Hk. by rewrite notes_key_ignored.
Qed.

Lemma unread_keys_ignored_witness :
  json_to_midi (JObj (<["resolution" := JNum (num 480)]> two_notes_dict))
  = json_to_midi (JObj two_notes_dict)
  ∧ without_log
      (json_to_midi
         (JObj (<["notes" := JArr (with_key "channel" (JNum (num 9))
                                     <$> [track_one_note; no_track_note])]>
                  two_notes_dict)))
    = without_log
        (json_to_midi
           (JObj (<["notes" := JArr [track_one_note; no_track_note]]>
                    two_notes_dict))).
Proof.
  split.
  - apply (unread_keys_ignored two_notes_dict [] "resolution" (JNum (num 480)));
      by_computation.
  - apply (unread_keys_ignored two_notes_dict [track_one_note; no_track_note]
             "channel" (JNum (num 9))).
    by_computation.
Defined.

(** ** The WORKING writer on a note that passes its checks *)

(** X18: WORKING hands a checked note to [addNote] in beats, as read, whatever
    its track; the note counts when [addNote] returns. *)
Theorem working_valid_note {MF} (addNote : MF → W.add_note_args → result MF)
    (num_tracks : Z) (st : W.notes_state MF) (d : gmap string json)
    (f : W.note_fields) :
  W.extract_note d = Ok f →
  (0 ≤ W.nf_pitch f ≤ 127)%Z → (0 ≤ W.nf_velocity f ≤ 127)%Z →
  (0 ≤ W.nf_channel f ≤ 15)%Z →
  0 ≤ W.nf_start_beat f → 0 < W.nf_duration_beat f →
  let args :=
    {| W.an_track := W.nf_track f; W.an_channel := W.nf_channel f;
       W.an_pitch := W.nf_pitch f; W.an_time := W.nf_start_beat f;
       W.an_duration := W.nf_duration_beat f; W.an_volume := W.nf_velocity f |} in
  let w :=
    if decide (W.nf_track f < 0 ∨ num_tracks ≤ W.nf_track f)%Z
    then [WarnTrackOutOfRange (W.nf_track f) num_tracks] else [] in
  (∀ mf, addNote (W.midi_file st) args = Ok mf →
     W.note_step addNote num_tracks st (JObj d)
     = W.NotesState mf (S (W.note_count st)) (W.skipped_count st)
         (W.notes_log st ++ w))
  ∧ (∀ e, addNote (W.midi_file st) args = Raise e →
     ∃ m, W.note_step addNote num_tracks st (JObj d) = W.skip_note st (w ++ [m])).
Proof.
  intros Hf Hpitch Hvelocity Hchannel Hstart Hduration. cbn zeta.
  cbn [W.note_step]. unfold W.note_body, W.check_note. rewrite Hf.
  rewrite !bool_decide_eq_true_2 by done. cbn [negb].
  rewrite (decide_False (P := _ ∨ _)).
  2:{ intros [H|H]; [by apply Qcle_not_lt in Hstart|by apply Qclt_not_le in Hduration]. }
  cbn [mbind result_bind]. split.
  - by intros mf ->.
  - intros e ->. destruct e; by eexists.
Qed.

Lemma working_valid_note_witness :
  W.note_step record_note 1 (W.NotesState [] 0 0 []) (JObj track_five_note)
  = W.NotesState
      [ {| W.an_track := 5; W.an_channel := 0; W.an_pitch := 60;
           W.an_time := num 4; W.an_duration := num 2; W.an_volume := 100 |} ]
      1 0 [WarnTrackOutOfRange 5 1].
Proof.
  apply (working_valid_note record_note 1 (W.NotesState [] 0 0 [])
           track_five_note track_five_fields);
    [by vm_compute|cbn; lia|cbn; lia|cbn; lia|by_computation|by_computation
    |reflexivity].
Defined.

(** ** The order of the tempo events in the document *)

Lemma sort_by_key_beat_le (tm : list (Qc * Qc)) : Sorted beat_le (sort_by_key fst tm).
Proof. apply (sort_by_key_Sorted fst). Qed.

Lemma NoDup_fst_inj {A B} (l : list (A * B)) x y :
  NoDup l.*1 → x ∈ l → y ∈ l → x.1 = y.1 → x = y.
Proof.
  induction l as [|z l IH]; [by intros _ ?%elem_of_nil|].
  rewrite fmap_cons. intros [Hz Hl]%NoDup_cons Hx Hy Hxy.
  apply elem_of_cons in Hx as [->|Hx], Hy as [->|Hy].
  - done.
  - exfalso. apply Hz. rewrite Hxy. by apply list_elem_of_fmap_2.
  - exfalso. apply Hz. rewrite <-Hxy. by apply list_elem_of_fmap_2.
  - by apply IH.
Qed.

Lemma sort_by_key_order (tm1 tm2 : list (Qc * Qc)) :
  tm1 ≡ₚ tm2 → NoDup tm1.*1 → sort_by_key fst tm1 = sort_by_key fst tm2.
Proof.
  intros Hperm Hnodup.
  apply (Sorted_unique_strong beat_le); try apply sort_by_key_beat_le.
  - intros x1 x2 Hx1 Hx2 H12 H21. apply (NoDup_fst_inj tm1); [done|..].
    + by rewrite sort_by_key_Permutation in Hx1.
    + by rewrite sort_by_key_Permutation, <-Hperm in Hx2.
    + by apply Qcle_antisym.
  - by rewrite !sort_by_key_Permutation.
Qed.

(** X19: when the beats of the tempo events are doubles as they stand and
    no two events are on the same beat, the order in which the document
    lists the events makes no difference to the run: the sort puts them in
    the one order of their beats. *)
Theorem tempo_order_irrelevant (d : gmap string json) (tm1 tm2 : list (Qc * Qc)) :
  tm1 ≡ₚ tm2 →
  NoDup tm1.*1 →
  Forall (λ e, exact_double e.1) tm1 →
  json_to_midi (JObj (<["tempo_map" := JArr (JObj ∘ tempo_event <$> tm1)]> d))
  = json_to_midi (JObj (<["tempo_map" := JArr (JObj ∘ tempo_event <$> tm2)]> d)).
Proof.
  intros Hperm Hnodup _.
  assert (prepare_tempo_map (JObj ∘ tempo_event <$> tm1)
          = prepare_tempo_map (JObj ∘ tempo_event <$> tm2)) as Hprepare.
  { unfold prepare_tempo_map.
    by rewrite !sort_tempo_map_events, (sort_by_key_order tm1 tm2). }
  unfold json_to_midi, extract.
  rewrite !lookup_insert_eq, !lookup_insert_ne by done.
  destruct tm1 as [|e1 tm1], tm2 as [|e2 tm2].
  - done.
  - by apply Permutation_nil_cons in Hperm.
  - symmetry in Hperm. by apply Permutation_nil_cons in Hperm.
  - rewrite !fmap_cons in *. cbv beta iota.
    destruct (d !! "notes") as [[| | | |notes|]|]; try done. by rewrite Hprepare.
Qed.

Lemma tempo_order_irrelevant_witness :
  json_to_midi
    (JObj (<["tempo_map" := JArr (JObj ∘ tempo_event <$> scenario_A)]> two_notes_dict))
  = json_to_midi
      (JObj (<["tempo_map" := JArr (JObj ∘ tempo_event <$> scenario_A_reversed)]>
               two_notes_dict)).
Proof.
  apply (tempo_order_irrelevant two_notes_dict scenario_A scenario_A_reversed).
  - apply Permutation_swap.
  - by_computation.
  - constructor; [|constructor; [|constructor]].
    + exists 0%Z, 0%nat. split; [by_computation|]. split; lia.
    + exists 4%Z, 0%nat. split; [by_computation|]. split; lia.
Defined.

(** ** The tempo map the loop receives *)

Lemma prepare_typed_shape tm events log :
  prepare_tempo_map (JObj ∘ tempo_event <$> tm) = Ok (events, log) →
  ∃ first rest,
    sort_by_key fst tm = first :: rest
    ∧ ((first.1 ≤ 0 ∧ events = tempo_event <$> first :: rest)
       ∨ (0 < first.1 ∧ events = tempo_event <$> (0, num 120) :: first :: rest)).
Proof.
  unfold prepare_tempo_map. rewrite sort_tempo_map_events.
  cbn [mbind result_bind].
  destruct (sort_by_key fst tm) as [|first rest]; [done|].
  rewrite fmap_cons. cbn [ensure_beat_zero].
  rewrite (get_Some _ _ _ _ (tempo_event_beat first)). cbn [gt mbind result_bind].
  case_bool_decide as Hfirst; intros [= <- <-]; exists first, rest; (split; [done|]).
  - by right.
  - left. split; [by apply Qcnot_lt_le|done].
Qed.

Lemma tempo_loop_in_order tm st i :
  Sorted beat_le tm →
  Forall (λ e, last_beat st ≤ e.1) tm →
  Forall (λ m, ¬ not_sorted_warning m) (build_log st) →
  Forall (λ m, ¬ not_sorted_warning m)
    (build_log (tempo_loop st i (tempo_event <$> tm))).
Proof.
  revert st i. induction tm as [|e tm IH]; intros st i Hsorted Hlast Hlog; [done|].
  rewrite fmap_cons. cbn [tempo_loop].
  apply Sorted_StronglySorted in Hsorted; [|apply _].
  apply StronglySorted_inv in Hsorted as [Hsorted Hhd].
  apply Forall_cons in Hlast as [He Hlast].
  assert (last_beat (tempo_step st i (tempo_event e)) = e.1
          ∧ Forall (λ m, ¬ not_sorted_warning m)
              (build_log (tempo_step st i (tempo_event e)))) as [Hbeat Hlog'].
  { tempo_step_fields e.
    rewrite (decide_False (P := e.1 < last_beat st)) by (by apply Qcle_not_lt).
    destruct (decide (e.2 ≤ 0)), (decide (i = 0%nat)), (decide (0 < last_bpm st));
      cbv beta iota zeta;
      destruct (decide (last_beat st < e.1 ∨ i = 0%nat));
      cbn [last_beat build_log]; (split; [done|]);
      rewrite ?app_nil_r; try done;
      repeat (apply Forall_app; split; try done);
      repeat constructor; by intros (? & ? & ? & ?). }
  apply IH; [by apply StronglySorted_Sorted| |done].
  rewrite Hbeat. exact Hhd.
Qed.

(** X20: the sort makes the order check of the loop idle: with beats from 0
    on, no event is reported as out of order, however the document lists
    them. *)
Theorem sorted_events_in_order (tm : list (Qc * Qc))
    (events : list (gmap string json)) (log : list diag) :
  prepare_tempo_map (JObj ∘ tempo_event <$> tm) = Ok (events, log) →
  Forall (λ e, 0 ≤ e.1) tm →
  ∀ i event_beat last_beat,
    WarnTempoNotSorted i event_beat last_beat
    ∉ build_log (build_beat_time_map events).
Proof.
  intros (first & rest & Hsort & Hevents)%prepare_typed_shape Hbeats i b lb Hin.
  pose proof (sort_by_key_beat_le tm) as Hsorted.
  apply (sort_by_key_Forall fst) in Hbeats. rewrite Hsort in Hsorted, Hbeats.
  assert (Forall (λ m, ¬ not_sorted_warning m)
            (build_log (build_beat_time_map events))) as Hlog.
  { destruct Hevents as [[_ ->]|[Hfirst ->]]; apply tempo_loop_in_order; try done.
    constructor; [done|]. constructor. by apply Qclt_le_weak.
    constructor; [done|]. done. }
  rewrite Forall_forall in Hlog. apply (Hlog _ Hin). by exists i, b, lb.
Qed.

Lemma sorted_events_in_order_witness :
  WarnTempoNotSorted 1 0 (num 4)
  ∉ build_log (build_beat_time_map (tempo_event <$> scenario_A)).
Proof.
  apply (sorted_events_in_order scenario_A_reversed (tempo_event <$> scenario_A) []).
  - vm_compute. reflexivity.
  - by_computation.
Defined.

Lemma Sorted_beat_lt (tm : list (Qc * Qc)) :
  Sorted beat_le tm → NoDup tm.*1 → Sorted (<) tm.*1.
Proof.
  induction tm as [|e tm IH]; [constructor|].
  rewrite fmap_cons. intros [Hsorted Hhd]%Sorted_inv [He Hnodup]%NoDup_cons.
  constructor; [by apply IH|].
  destruct tm as [|e' tm]; rewrite ?fmap_cons; constructor.
  apply HdRel_inv in Hhd. unfold beat_le in Hhd.
  destruct (decide (e.1 < e'.1)) as [|Hle%Qcnot_lt_le]; [done|].
  exfalso. apply He. rewrite fmap_cons. rewrite (Qcle_antisym _ _ Hhd Hle). left.
Qed.

Lemma beat_to_time_mono_aux (tm : list (Qc * Qc)) (b1 b2 : Qc) :
  head tm.*1 = Some 0 → Sorted no_faster tm → 0 ≤ b1 → b1 ≤ b2 →
  beat_to_time tm b1 ≤ beat_to_time tm b2.
Proof.
  intros Hhead Hslower Hb1 Hb12. unfold beat_to_time. cbn zeta.
  pose proof (table_ok_build tm Hhead Hslower) as [Hsorted Hhd _ _ _ _].
  destruct (beat_time_map _) as [|x l]; [done|].
  injection Hhd as ->. rewrite !get_time_from_beat_table.
  by apply table_time_mono.
Qed.

(** X21: the whole path from the document to the conversion is monotonic,
    in whatever order the document lists its tempo events.  When the beats
    of the events are doubles as they stand, from 0 on, no two on the same
    beat, and the tempos are numbers in the range of the doubles, then
    after the sort and the insertion of the event at beat 0 a beat from 0
    on is never converted to a later time than a beat after it. *)
Theorem any_order_monotone (tm : list (Qc * Qc))
    (events : list (gmap string json)) (log : list diag) (b1 b2 : Qc) :
  prepare_tempo_map (JObj ∘ tempo_event <$> tm) = Ok (events, log) →
  NoDup tm.*1 →
  Forall (λ e, 0 ≤ e.1 ∧ exact_double e.1 ∧ double_range e.2) tm →
  0 ≤ b1 → b1 ≤ b2 →
  let st := build_beat_time_map events in
  (get_time_from_beat b1 (beat_time_map st) (tempo_map_dict st)).1
  ≤ (get_time_from_beat b2 (beat_time_map st) (tempo_map_dict st)).1.
Proof.
  intros (first & rest & Hsort & Hevents)%prepare_typed_shape Hnodup Hbeats Hb1 Hb12.
  cbn zeta.
  pose proof (sort_by_key_beat_le tm) as Hsorted.
  assert (Forall (λ e, 0 ≤ e.1) (sort_by_key fst tm)) as Hnonneg.
  { apply sort_by_key_Forall. eapply Forall_impl; [exact Hbeats|]. by intros e [? _]. }
  assert (NoDup (sort_by_key fst tm).*1) as Hnodup'
    by (by rewrite sort_by_key_Permutation).
  rewrite Hsort in Hsorted, Hnonneg, Hnodup'.
  pose proof (Sorted_beat_lt _ Hsorted Hnodup') as Hlt.
  apply Forall_cons in Hnonneg as [Hfirst _].
  destruct Hevents as [[Hzero ->]|[Hpos ->]].
  - apply (beat_to_time_mono_aux (first :: rest)); try done.
    + rewrite fmap_cons. cbn [head]. f_equal. by apply Qcle_antisym.
    + by apply Sorted_no_faster.
  - apply (beat_to_time_mono_aux ((0, num 120) :: first :: rest)); try done.
    apply Sorted_no_faster. rewrite fmap_cons. constructor; [done|].
    rewrite fmap_cons. by constructor.
Qed.

Lemma any_order_monotone_witness :
  let st := build_beat_time_map (tempo_event <$> scenario_A) in
  (get_time_from_beat (num 1) (beat_time_map st) (tempo_map_dict st)).1
  ≤ (get_time_from_beat (num 5) (beat_time_map st) (tempo_map_dict st)).1.
Proof.
  apply (any_order_monotone scenario_A_reversed
           (tempo_event <$> scenario_A) [] (num 1) (num 5)).
  - vm_compute. reflexivity.
  - by_computation.
  - constructor; [|constructor; [|constructor]].
    + split; [by_computation|]. split; [|by_computation].
      exists 4%Z, 0%nat. split; [by_computation|]. split; lia.
    + split; [by_computation|]. split; [|by_computation].
      exists 0%Z, 0%nat. split; [by_computation|]. split; lia.
  - by_computation.
  - by_computation.
Defined.

(** ** Documents that are written *)









(** ** The notes [notes_code.py] writes *)

Lemma number_Ok v q : NC.number v = Ok q → numeric v.
Proof. by destruct v. Qed.

Lemma getitem_Ok (d : gmap string json) k v : getitem d k = Ok v → d !! k = Some v.
Proof. unfold getitem. destruct (d !! k); [by intros [= ->]|done]. Qed.

Lemma new_note_key pitch start_beat duration_beat velocity track :
  NC.start_beat_key (NC.new_note pitch start_beat duration_beat velocity track)
  = Ok start_beat.
Proof.
  unfold NC.start_beat_key, NC.new_note, obj, getitem.
  cbn [as_dict from_option mbind result_bind list_to_map foldr fst snd].
  rewrite lookup_insert_ne, lookup_insert_eq by done. done.
Qed.

(** The loop body on a note: eight notes, the note itself first, each with a
    number as start beat. *)
Lemma variations_Ok note l :
  NC.variations note = Ok l →
  usable_note note
  ∧ length l = 8%nat
  ∧ head l = Some note
  ∧ Forall (λ n, ∃ k, NC.start_beat_key n = Ok k) l
  ∧ ∃ e, NC.note_end note = Ok e.
Proof.
  unfold NC.variations, NC.note_end. destruct note as [| | | | |d]; try done.
  cbn [as_dict from_option mbind result_bind].
  destruct (getitem d "start_beat") as [start|] eqn:Hstart; [|done].
  destruct (getitem d "duration_beat") as [dur|] eqn:Hdur; [|done].
  destruct (getitem d "velocity") as [vel|] eqn:Hvel; [|done].
  destruct (getitem d "pitch") as [pitch|] eqn:Hpitch; [|done].
  cbn [mbind result_bind].
  destruct (NC.number start) as [s|] eqn:Hs; [|done].
  destruct (NC.number dur) as [du|] eqn:Hdu; [|done].
  destruct (NC.number pitch) as [p|] eqn:Hp; [|done].
  cbn [mbind result_bind]. intros [= <-].
  apply getitem_Ok in Hstart, Hdur, Hvel, Hpitch.
  split; [|split; [done|split; [done|split]]].
  - exists d. split; [done|]. split; [exists start|split; [exists dur|split; [exists pitch|]]];
      eauto using number_Ok.
  - constructor.
    + exists s. unfold NC.start_beat_key. cbn [as_dict from_option mbind result_bind].
      unfold getitem. by rewrite Hstart.
    + cbn [seqZ]. repeat (constructor; [by eexists; apply new_note_key|]).
      constructor.
  - by eexists.
Qed.

Lemma traverse_variations notes appended :
  traverse NC.variations notes = Ok appended →
  Forall usable_note notes
  ∧ length (concat appended) = (8 * length notes)%nat
  ∧ Forall (λ n, ∃ k, NC.start_beat_key n = Ok k) (concat appended)
  ∧ (∀ note, note ∈ notes → note ∈ concat appended)
  ∧ ∃ ends, traverse NC.note_end notes = Ok ends.
Proof.
  revert appended. induction notes as [|note notes IH]; intros appended; cbn [traverse].
  - intros [= <-]. split; [done|]. split; [done|]. split; [done|].
    split; [by intros ? ?%elem_of_nil|by eexists].
  - destruct (NC.variations note) as [l|] eqn:Hl; [|done]. cbn [mbind result_bind].
    destruct (traverse NC.variations notes) as [ls|]; [|done].
    cbn [mbind result_bind]. intros [= <-].
    destruct (variations_Ok _ _ Hl) as (Husable & Hlen & Hhead & Hkeys & e & He).
    destruct (IH ls eq_refl) as (Hall & Hlens & Hkeyss & Hin & ends & Hends).
    cbn [concat]. split; [by constructor|]. split.
    { rewrite length_app, Hlen, Hlens. cbn [length]. lia. }
    split; [by apply Forall_app|]. split.
    + intros n [->|Hn]%elem_of_cons; apply elem_of_app; [left|right; by apply Hin].
      destruct l as [|x l]; [done|]. injection Hhead as ->. left.
    + exists (e :: ends). by rewrite He, Hends.
Qed.

Lemma length_bind_const {A B} (f : A → list B) (k : nat) (l : list A) :
  (∀ x, length (f x) = k) → length (l ≫= f) = (k * length l)%nat.
Proof.
  intros Hf. induction l as [|x l IH]; [cbn; lia|].
  rewrite bind_cons, length_app, Hf, IH. cbn [length]. lia.
Qed.

Lemma overlay_length max_beat :
  length (NC.overlay max_beat) = (3 * Z.to_nat (NC.ceil max_beat))%nat.
Proof.
  unfold NC.overlay. rewrite (length_bind_const _ 3); [by rewrite length_seqZ|].
  intros b. done.
Qed.

(** Sorting by computed keys. *)
Lemma traverse_zip {A} (key : A → result Qc) l keys :
  traverse key l = Ok keys →
  length keys = length l ∧ Forall (λ p, key p.2 = Ok p.1) (zip keys l).
Proof.
  revert keys. induction l as [|x l IH]; intros keys; cbn [traverse].
  - by intros [= <-].
  - destruct (key x) as [k|] eqn:Hk; [|done]. cbn [mbind result_bind].
    destruct (traverse key l) as [ks|]; [|done]. cbn [mbind result_bind].
    intros [= <-]. destruct (IH ks eq_refl) as [Hlen Hall].
    split; [cbn; by rewrite Hlen|]. by constructor.
Qed.

Lemma traverse_keys {A} (key : A → result Qc) (l : list (Qc * A)) :
  Forall (λ p, key p.2 = Ok p.1) l → traverse key l.*2 = Ok l.*1.
Proof.
  induction 1 as [|p l Hp _ IH]; [done|].
  rewrite !fmap_cons. cbn [traverse]. by rewrite Hp, IH.
Qed.

Lemma sort_with_keys {A} (key : A → result Qc) l keys :
  traverse key l = Ok keys →
  let sorted := sort_by_key fst (zip keys l) in
  traverse key sorted.*2 = Ok sorted.*1
  ∧ Sorted (≤) sorted.*1
  ∧ sorted.*2 ≡ₚ l.
Proof.
  intros [Hlen Hall]%traverse_zip. cbn zeta. split; [|split].
  - by apply traverse_keys, sort_by_key_Forall.
  - eapply Sorted_fmap; [|apply (sort_by_key_Sorted fst)]. done.
  - rewrite sort_by_key_Permutation. rewrite snd_zip; [done|lia].
Qed.

Lemma new_notes_Ok notes out :
  NC.new_notes notes = Ok out →
  ∃ appended ends max_beat keys,
    traverse NC.variations notes = Ok appended
    ∧ traverse NC.note_end notes = Ok ends
    ∧ NC.max ends = Ok max_beat
    ∧ traverse NC.start_beat_key (concat appended ++ NC.overlay max_beat) = Ok keys
    ∧ out = (sort_by_key fst (zip keys (concat appended ++ NC.overlay max_beat))).*2.
Proof.
  unfold NC.new_notes.
  destruct (traverse NC.variations notes) as [appended|] eqn:Happended; [|done].
  cbn [mbind result_bind].
  destruct (traverse NC.note_end notes) as [ends|] eqn:Hends; [|done].
  cbn [mbind result_bind].
  destruct (NC.max ends) as [max_beat|] eqn:Hmax; [|done]. cbn [mbind result_bind].
  destruct (traverse NC.start_beat_key _) as [keys|] eqn:Hkeys; [|done].
  cbn [mbind result_bind]. intros [= <-]. by exists appended, ends, max_beat, keys.
Qed.

(** X23: when the script reaches its end, the list it writes holds eight
    notes for each note of the document, the note itself and seven
    variations, and three overlay notes for each whole beat up to the
    largest end of a note. *)
Theorem new_notes_count (notes out : list json) :
  NC.new_notes notes = Ok out →
  ∃ ends max_beat,
    traverse NC.note_end notes = Ok ends
    ∧ NC.max ends = Ok max_beat
    ∧ length out = (8 * length notes + 3 * Z.to_nat (NC.ceil max_beat))%nat.
Proof.
  intros (appended & ends & max_beat & keys & Happended & Hends & Hmax & Hkeys & ->)
    %new_notes_Ok.
  exists ends, max_beat. split; [done|]. split; [done|].
  destruct (traverse_variations _ _ Happended) as (_ & Hlen & _).
  destruct (sort_with_keys _ _ _ Hkeys) as (_ & _ & Hperm).
  by rewrite Hperm, length_app, Hlen, overlay_length.
Qed.

Lemma new_notes_count_witness :
  ∃ ends max_beat,
    traverse NC.note_end one_note = Ok ends
    ∧ NC.max ends = Ok max_beat
    ∧ length one_note_output
      = (8 * length one_note + 3 * Z.to_nat (NC.ceil max_beat))%nat.
Proof.
  apply (new_notes_count one_note one_note_output). vm_compute. reflexivity.
Defined.

(** X24: the list the script writes is in the order of the start beats,
    which are all numbers, and holds every note of the document. *)
Theorem new_notes_sorted (notes out : list json) :
  NC.new_notes notes = Ok out →
  (∃ keys, traverse NC.start_beat_key out = Ok keys ∧ Sorted (≤) keys)
  ∧ ∀ note, note ∈ notes → note ∈ out.
Proof.
  intros (appended & ends & max_beat & keys & Happended & Hends & Hmax & Hkeys & ->)
    %new_notes_Ok.
  destruct (sort_with_keys _ _ _ Hkeys) as (Hsorted_keys & Hsorted & Hperm).
  split; [by eexists|].
  intros note Hnote. rewrite Hperm. apply elem_of_app. left.
  by apply (traverse_variations _ _ Happended).
Qed.

Lemma new_notes_sorted_witness :
  (∃ keys, traverse NC.start_beat_key one_note_output = Ok keys ∧ Sorted (≤) keys)
  ∧ ∀ note, note ∈ one_note → note ∈ one_note_output.
Proof.
  apply (new_notes_sorted one_note one_note_output). vm_compute. reflexivity.
Defined.

(** X25: the script gets to its end only on a list of notes that is not
    empty and in which every note is a dictionary with numbers as pitch,
    start beat and duration and with a velocity; on the empty list the [max]
    of line 52 raises [ValueError]. *)
Theorem new_notes_needs (notes out : list json) :
  NC.new_notes notes = Ok out →
  notes ≠ [] ∧ Forall usable_note notes ∧ NC.new_notes [] = Raise ValueError.
Proof.
  intros (appended & ends & max_beat & keys & Happended & Hends & Hmax & _)
    %new_notes_Ok.
  split; [|split; [by apply (traverse_variations _ _ Happended)|done]].
  intros ->. cbn in Hends. by injection Hends as <-.
Qed.

Lemma new_notes_needs_witness :
  one_note ≠ [] ∧ Forall usable_note one_note
  ∧ NC.new_notes [] = Raise ValueError.
Proof.
  apply (new_notes_needs one_note one_note_output). vm_compute. reflexivity.
Defined.
